(** * mlens.parallel.fit_predict: dispatch and collection of estimator jobs

    A shallow embedding of [src/mlens/parallel/fit_predict.py] and the
    properties of its functions: the dispatch primitive
    [_parallel_estimation], the column filter [_pre_check_estimators] and the
    orchestrators [base_predict], [fit_estimators] and [cross_validate]. *)

From stdpp Require Import base option list strings countable gmap.
From Stdlib Require Import ZArith.

Set Default Proof Using "Type".

(** ** Python values *)

(** The fragment of Python's values the module handles.  [VObj] stands for
    an object the module never looks into (an array, an estimator, a fitted
    model, a scoring callable): it is compared and hashed by identity. *)
#[local] Unset Elimination Schemes.
Inductive value : Type :=
  | VNone
  | VInt (z : Z)
  | VStr (s : string)
  | VTuple (vs : list value)
  | VList (vs : list value)
  | VObj (id : nat).
#[local] Set Elimination Schemes.

(** The exceptions that can cross the module.  [KeyError] and [IndexError]
    are Python's two [LookupError]s; [Raised] is whatever a job raises. *)
Inductive exn : Type :=
  | KeyError
  | IndexError
  | ValueError
  | TypeError
  | Raised (tag : string).

(** A computation that returns or raises. *)
Inductive res (A : Type) : Type :=
  | Ok (a : A)
  | Err (e : exn).
Arguments Ok {A} a.
Arguments Err {A} e.

Section value_ind.
Variable P : value → Prop.
Hypothesis HNone : P VNone.
Hypothesis HInt : ∀ z, P (VInt z).
Hypothesis HStr : ∀ s, P (VStr s).
Hypothesis HTuple : ∀ vs, Forall P vs → P (VTuple vs).
Hypothesis HList : ∀ vs, Forall P vs → P (VList vs).
Hypothesis HObj : ∀ id, P (VObj id).

Fixpoint value_nested_ind (v : value) : P v :=
  match v with
  | VNone => HNone
  | VInt z => HInt z
  | VStr s => HStr s
  | VTuple vs =>
      HTuple vs ((fix go (l : list value) : Forall P l :=
                    match l with
                    | [] => Forall_nil_2 P
                    | x :: l' => Forall_cons_2 P x l' (value_nested_ind x) (go l')
                    end) vs)
  | VList vs =>
      HList vs ((fix go (l : list value) : Forall P l :=
                   match l with
                   | [] => Forall_nil_2 P
                   | x :: l' => Forall_cons_2 P x l' (value_nested_ind x) (go l')
                   end) vs)
  | VObj id => HObj id
  end.
End value_ind.

(** Values as generic trees, for equality and for use as dictionary keys. *)
Fixpoint value_to_tree (v : value) : gen_tree (Z + string + nat) :=
  match v with
  | VNone => GenNode 0 []
  | VInt z => GenLeaf (inl (inl z))
  | VStr s => GenLeaf (inl (inr s))
  | VTuple vs => GenNode 1 (value_to_tree <$> vs)
  | VList vs => GenNode 2 (value_to_tree <$> vs)
  | VObj id => GenLeaf (inr id)
  end.

Fixpoint tree_to_value (t : gen_tree (Z + string + nat)) : value :=
  match t with
  | GenLeaf (inl (inl z)) => VInt z
  | GenLeaf (inl (inr s)) => VStr s
  | GenLeaf (inr id) => VObj id
  | GenNode 1 ts => VTuple (tree_to_value <$> ts)
  | GenNode 2 ts => VList (tree_to_value <$> ts)
  | GenNode _ _ => VNone
  end.

Lemma tree_to_value_to_tree (v : value) : tree_to_value (value_to_tree v) = v.
Proof.
  induction v as [| | |vs IH|vs IH|] using value_nested_ind; simpl; try done.
  all: f_equal; induction IH as [|x l Hx _ IHl]; csimpl; [done|].
  all: by rewrite Hx, IHl.
Qed.

Lemma value_to_tree_inj (v w : value) : value_to_tree v = value_to_tree w → v = w.
Proof.
  intros H. rewrite <- (tree_to_value_to_tree v), <- (tree_to_value_to_tree w).
  by rewrite H.
Qed.

#[global] Instance value_eq_dec : EqDecision value.
Proof.
  intros v w. destruct (decide (value_to_tree v = value_to_tree w)) as [H|H].
  - left. by apply value_to_tree_inj.
  - right. intros ->. by apply H.
Defined.

#[global] Instance value_countable : Countable value.
Proof.
  apply (inj_countable' value_to_tree tree_to_value), tree_to_value_to_tree.
Defined.

#[global] Instance exn_eq_dec : EqDecision exn.
Proof. solve_decision. Defined.

#[global] Instance res_eq_dec {A} `{EqDecision A} : EqDecision (res A).
Proof. solve_decision. Defined.

(** ** Computations

    The module's functions are written once, over any monad [M] with
    exceptions.  [res] runs them when every collaborator is a function;
    [outcomes] runs them when a collaborator may answer differently from one
    call to the next. *)

#[global] Instance res_ret : MRet res := λ A a, Ok a.
#[global] Instance res_bind : MBind res := λ A B f m,
  match m with
  | Ok a => f a
  | Err e => Err e
  end.
#[global] Instance res_throw : MThrow exn res := λ A e, Err e.
#[global] Instance res_fmap : FMap res := λ A B f m,
  match m with
  | Ok a => Ok (f a)
  | Err e => Err e
  end.

(** The set of results a computation can end in. *)
Definition outcomes (A : Type) : Type := res A → Prop.

#[global] Instance outcomes_ret : MRet outcomes := λ A a r, r = Ok a.
#[global] Instance outcomes_bind : MBind outcomes := λ A B f m r,
  (∃ a, m (Ok a) ∧ f a r) ∨ (∃ e, m (Err e) ∧ r = Err e).
#[global] Instance outcomes_throw : MThrow exn outcomes := λ A e r, r = Err e.

(** A pure step inside a computation. *)
Definition lift {M} `{MRet M, MThrow exn M} {A} (r : res A) : M A :=
  match r with
  | Ok a => mret a
  | Err e => mthrow e
  end.

(** [try: body except ValueError: handler] *)
Definition try_except_ValueError {A} (body handler : res A) : res A :=
  match body with
  | Err ValueError => handler
  | _ => body
  end.

(** ** The Python operations the module uses *)

(** [iter(v)]: tuples and lists yield their items, a string its
    characters; nothing else in [value] is iterable. *)
Definition iter_value (v : value) : res (list value) :=
  match v with
  | VTuple vs | VList vs => Ok vs
  | VStr s => Ok ((λ c, VStr (String c EmptyString)) <$> String.list_ascii_of_string s)
  | VNone | VInt _ | VObj _ => Err TypeError
  end.

(** [v[-1]], for the values that are sequences: those [iter_value]
    accepts. *)
Definition getitem_last (v : value) : res value :=
  items ← iter_value v;
  match last items with
  | Some x => Ok x
  | None => Err IndexError
  end.

(** [hash(v)] is defined: lists are not hashable, a tuple is when its items
    are. *)
Fixpoint hashable (v : value) : bool :=
  match v with
  | VList _ => false
  | VTuple vs => forallb hashable vs
  | VNone | VInt _ | VStr _ | VObj _ => true
  end.

(** [d[k]] *)
Definition dict_getitem {V} (d : gmap value V) (k : value) : res V :=
  if hashable k then
    match d !! k with
    | Some x => Ok x
    | None => Err KeyError
    end
  else Err TypeError.

(** [k in d] *)
Definition dict_contains {V} (d : gmap value V) (k : value) : res bool :=
  if hashable k then Ok (bool_decide (is_Some (d !! k))) else Err TypeError.

(** [a, b, c = it] and [a, b = it], on the items [it] yields. *)
Definition unpack3 {A} (items : list A) : res (A * A * A) :=
  match items with
  | [a; b; c] => Ok (a, b, c)
  | _ => Err ValueError
  end.

Definition unpack2 {A} (items : list A) : res (A * A) :=
  match items with
  | [a; b] => Ok (a, b)
  | _ => Err ValueError
  end.

(** How many rows [zip] yields on sequences already iterated: as many as
    the shortest has items, none when there is no sequence. *)
Definition zip_width (cols : list (list value)) : nat :=
  match cols with
  | [] => 0
  | c :: cs => foldr Nat.min (length c) (length <$> cs)
  end.

(** The rows [zip] yields: row [i] holds item [i] of each sequence. *)
Definition zip_rows (cols : list (list value)) : list (list value) :=
  (λ i, omap (λ c, c !! i) cols) <$> seq 0 (zip_width cols).

(** [zip] applied to the unpacked [out]: every element of [out] is
    iterated first. *)
Definition zip_star (out : list value) : res (list (list value)) :=
  cols ← mapM iter_value out;
  Ok (zip_rows cols).

(** ** Generators and the execution engine *)

(** What a generator expression does when it is consumed: it yields
    items, then ends or raises. *)
Inductive gen (A : Type) : Type :=
  | GDone
  | GYield (a : A) (g : gen A)
  | GRaise (e : exn).
Arguments GDone {A}.
Arguments GYield {A} a g.
Arguments GRaise {A} e.

Fixpoint gen_seq {A} (g1 g2 : gen A) : gen A :=
  match g1 with
  | GDone => g2
  | GYield a g => GYield a (gen_seq g g2)
  | GRaise e => GRaise e
  end.

(** [... for x in l <body>]: the clauses of a comprehension nest. *)
Fixpoint gen_for {A B} (l : list A) (body : A → gen B) : gen B :=
  match l with
  | [] => GDone
  | x :: l' => gen_seq (body x) (gen_for l' body)
  end.

(** [... for x in <r> <body>] where evaluating the iterable may raise. *)
Definition gen_for_in {A B} (r : res (list A)) (body : A → gen B) : gen B :=
  match r with
  | Ok l => gen_for l body
  | Err e => GRaise e
  end.

Definition gen_yield {A} (a : A) : gen A := GYield a GDone.

(** The tasks a generator yields before it ends or raises, and the
    exception it ends in, if it raises. *)
Fixpoint gen_tasks {A} (g : gen A) : list A :=
  match g with
  | GDone | GRaise _ => []
  | GYield a g' => a :: gen_tasks g'
  end.

Fixpoint gen_raises {A} (g : gen A) : option exn :=
  match g with
  | GDone => None
  | GYield _ g' => gen_raises g'
  | GRaise e => Some e
  end.

Section serial.
Context {M : Type → Type} `{!MRet M, !MBind M, !MThrow exn M}.

(** The tasks taken from the generator and run one after the other: each
    is run before the next is asked for, and the first exception, of a task
    or of the generator, ends the run. *)
Fixpoint run_serial (tasks : gen (M value)) : M (list value) :=
  match tasks with
  | GDone => mret []
  | GYield task tasks' =>
      r ← task;
      rs ← run_serial tasks';
      mret (r :: rs)
  | GRaise e => mthrow e
  end.
End serial.

(** [joblib]'s [Parallel(n_jobs, verbose)(tasks)], as the module relies on
    it.  A task is a call that [delayed] has put off, here a computation
    not yet run.  [n_jobs = 0] is refused with [ValueError] before any task
    is taken.  With [n_jobs = 1] the tasks run one after the other.  With
    any other [n_jobs] they run on workers and the generator is read ahead:
    when it ends and every task returns, the results come back in
    submission order; when something raises, one of the exceptions is
    raised, and which one is a matter of timing.  [verbose] has no bearing
    on the results. *)
Class Engine (M : Type → Type) :=
  Parallel : Z → bool → gen (M value) → M (list value).

(** The engine with every run it can take. *)
#[global] Instance outcomes_engine : Engine outcomes := λ n_jobs verbose tasks r,
  if decide (n_jobs = 0%Z) then r = Err ValueError
  else if decide (n_jobs = 1%Z) then run_serial tasks r
  else (∃ rs, gen_raises tasks = None
              ∧ Forall2 (λ (task : outcomes value) x, task (Ok x))
                  (gen_tasks tasks) rs
              ∧ r = Ok rs)
       ∨ (∃ e, r = Err e
               ∧ (gen_raises tasks = Some e
                  ∨ ∃ task : outcomes value,
                      task ∈ gen_tasks tasks ∧ task (Err e))).

(** The engine on functions: the run in which what raises first in
    submission order is what is raised.  It is the only run with
    [n_jobs = 1], and with another [n_jobs] the only one when nothing
    raises or when a single exception can be raised; otherwise it is one of
    the runs the engine can take. *)
#[global] Instance res_engine : Engine res := λ n_jobs verbose tasks,
  if decide (n_jobs = 0%Z) then Err ValueError else run_serial tasks.

(** ** The module *)

Section fit_predict.
Context {M : Type → Type} `{!MRet M, !MBind M, !MThrow exn M, !Engine M}.

Definition delayed {A} (function : A → M value) (args : A) : M value :=
  function args.

(** The functions of [_fit_predict_functions] and [pandas.DataFrame]. *)
Variable _fit_score : value * value * value * value * value * value * value → M value.
Variables _fit_predict_base _predict_base _predict _fit_estimator : value → M value.
Variable _construct_matrix : list value → value → list value → bool → M value.
Variable DataFrame : value → list value → M value.

Definition _pre_check_estimators (out : list value)
    (case_est_base_columns : list value) : res (list value) :=
  case_est_names ←
    try_except_ValueError
      (rows ← zip_star out;
       '(case_est_names, _, _) ← unpack3 rows;
       Ok case_est_names)
      (rows ← zip_star out;
       '(case_est_names, _) ← unpack2 rows;
       Ok case_est_names);
  Ok (filter (λ ce, ce ∈ case_est_names) case_est_base_columns).

Definition _parallel_estimation (function : value → M value)
    (data : list value) (estimator_cases : gmap value (list value))
    (optional_args : option (list value)) (n_jobs : Z) (verbose : bool)
    : M (list value) :=
  let add_input := match optional_args with Some args => args | None => [] end in
  Parallel n_jobs verbose
    (gen_for data (λ tup,
       gen_for_in (key ← getitem_last tup; dict_getitem estimator_cases key)
         (λ est,
            gen_yield (delayed function (VTuple (add_input ++ [tup; est])))))).

Definition base_predict (data : list value)
    (estimator_cases : gmap value (list value)) (n : value)
    (folded_preds fit : bool) (columns : list value) (as_df : bool)
    (n_jobs : Z) (verbose : bool) : M (value * list value) :=
  let function :=
    if folded_preds then
      if fit then _fit_predict_base else _predict_base
    else _predict in
  out ← _parallel_estimation function data estimator_cases None n_jobs verbose;
  fitted_estimators ← lift (_pre_check_estimators out columns);
  M_ ← _construct_matrix out n fitted_estimators folded_preds;
  M_ ← (if as_df then DataFrame M_ fitted_estimators else mret M_);
  mret (M_, fitted_estimators).

(** The loop of [fit_estimators] over the results, from the dictionary
    built so far. *)
Fixpoint fit_estimators_loop (out : list value)
    (fitted_estimators : gmap value (list value))
    : res (gmap value (list value)) :=
  match out with
  | [] => Ok fitted_estimators
  | r :: out' =>
      items ← iter_value r;
      '(case, est_name, est) ← unpack3 items;
      if decide (est_name ≠ VNone) then
        dict_contains fitted_estimators case ≫= λ present : bool,
        let fitted_estimators :=
          if present then fitted_estimators
          else <[case := []]> fitted_estimators in
        l ← dict_getitem fitted_estimators case;
        fit_estimators_loop out'
          (<[case := l ++ [VTuple [est_name; est]]]> fitted_estimators)
      else fit_estimators_loop out' fitted_estimators
  end.

Definition fit_estimators (data : list value) (y : value)
    (estimator_cases : gmap value (list value)) (n_jobs : Z) (verbose : bool)
    : M (gmap value (list value)) :=
  out ← _parallel_estimation _fit_estimator data estimator_cases (Some [y])
          n_jobs verbose;
  lift (fit_estimators_loop out ∅).

(** [estimators] is a dictionary that is only iterated: it is given by
    its [items()], in the dictionary's order. *)
Definition cross_validate (estimators : list (value * value))
    (param_sets : gmap value (list value)) (dout : list value)
    (scoring error_score : value) (n_jobs : Z) (verbose : bool)
    : M (list value) :=
  out ← Parallel n_jobs verbose
          (gen_for dout (λ tup,
             gen_for estimators (λ '(est_name, est),
               gen_for_in
                 (imap (λ (i : nat) (params : value), (VInt (Z.of_nat i), params))
                    <$> dict_getitem param_sets est_name)
                 (λ '(i, params),
                    gen_yield
                      (delayed _fit_score
                         (est, est_name, params, scoring, tup, i, error_score))))));
  mret out.
End fit_predict.

(** ** What the specification speaks of *)

(** [estimator_cases[tup[-1]]], the estimators of a tuple's case. *)
Definition case_estimators (estimator_cases : gmap value (list value))
    (tup : value) : res (list value) :=
  key ← getitem_last tup; dict_getitem estimator_cases key.

(** The same where a count or an enumeration needs a list: no estimator
    where the lookup fails. *)
Definition estimators_of (estimator_cases : gmap value (list value))
    (tup : value) : list value :=
  match case_estimators estimator_cases tup with
  | Ok ests => ests
  | Err _ => []
  end.

(** The argument of each job: tuple-major over the data, estimator-minor
    over the list of the tuple's case. *)
Definition job_args (add_input : list value)
    (estimator_cases : gmap value (list value)) (data : list value)
    : list value :=
  tup ← data;
  (λ est, VTuple (add_input ++ [tup; est])) <$> estimators_of estimator_cases tup.

Definition add_input_of (optional_args : option (list value)) : list value :=
  match optional_args with Some args => args | None => [] end.

(** The generator [_parallel_estimation] hands to the engine. *)
Definition dispatch_jobs {M : Type → Type} (function : value → M value)
    (data : list value) (estimator_cases : gmap value (list value))
    (optional_args : option (list value)) : gen (M value) :=
  gen_for data (λ tup,
    gen_for_in (case_estimators estimator_cases tup)
      (λ est,
         gen_yield
           (delayed function
              (VTuple (add_input_of optional_args ++ [tup; est]))))).

(** [LookupError]: [KeyError] and [IndexError]. *)
Definition is_lookup_error (e : exn) : Prop := e = KeyError ∨ e = IndexError.

(** [sum(len(estimator_cases[tup[-1]]) for tup in data)] *)
Definition job_count (estimator_cases : gmap value (list value))
    (data : list value) : nat :=
  sum_list ((λ tup, length (estimators_of estimator_cases tup)) <$> data).

Definition is_Ok {A} (r : res A) : Prop := ∃ a, r = Ok a.
Definition is_Err {A} (r : res A) : Prop := ∃ e, r = Err e.

(** The work function [base_predict] is to select, as the specification
    tabulates it. *)
Definition selected_function {M : Type → Type}
    (_fit_predict_base _predict_base _predict : value → M value)
    (folded_preds fit : bool) : value → M value :=
  match folded_preds, fit with
  | true, true => _fit_predict_base
  | true, false => _predict_base
  | false, _ => _predict
  end.

(** [base_predict] from its dispatch on (lines 83 to 92), for a given work
    function. *)
Definition predict_with {M : Type → Type}
    `{!MRet M, !MBind M, !MThrow exn M, !Engine M}
    (_construct_matrix : list value → value → list value → bool → M value)
    (DataFrame : value → list value → M value)
    (function : value → M value) (data : list value)
    (estimator_cases : gmap value (list value)) (n : value)
    (folded_preds : bool) (columns : list value) (as_df : bool)
    (n_jobs : Z) (verbose : bool) : M (value * list value)%type :=
  out ← _parallel_estimation function data estimator_cases None n_jobs verbose;
  fitted_estimators ← lift (_pre_check_estimators out columns);
  M_ ← _construct_matrix out n fitted_estimators folded_preds;
  M_ ← (if as_df then DataFrame M_ fitted_estimators else mret M_);
  mret (M_, fitted_estimators).


(** The first item of each result, where it has one: the name component of
    the results of the prediction functions. *)
Definition first_items (out : list value) : list value :=
  omap (λ r, match iter_value r with
             | Ok (name :: _) => Some name
             | _ => None
             end) out.

(** A result that unpacks into [k] items. *)
Definition has_arity (k : nat) (r : value) : Prop :=
  ∃ items, iter_value r = Ok items ∧ length items = k.


(** The entries [fit_estimators] is to file under a case: of the results,
    in their order, those of that case whose name is not [None], as
    [(est_name, est)] pairs. *)
Definition fitted_of (key : value) (out : list value) : list value :=
  omap (λ r, match iter_value r ≫= unpack3 with
             | Ok (case, est_name, est) =>
                 if decide (est_name ≠ VNone ∧ case = key)
                 then Some (VTuple [est_name; est])
                 else None
             | Err _ => None
             end) out.

(** A result the loop of [fit_estimators] accepts: three items, and a case
    that can be a dictionary key when the name is not [None]. *)
Definition fit_result (r : value) : Prop :=
  ∃ case est_name est,
    iter_value r ≫= unpack3 = Ok (case, est_name, est)
    ∧ (est_name ≠ VNone → hashable case = true).


(** [param_sets[est_name]] where a count needs a list: no parameter set
    where the lookup fails. *)
Definition params_of (param_sets : gmap value (list value))
    (est_name : value) : list value :=
  match dict_getitem param_sets est_name with
  | Ok params => params
  | Err _ => []
  end.

(** [sum(len(param_sets[name]) for name in estimators)] *)
Definition param_count (param_sets : gmap value (list value))
    (estimators : list (value * value)) : nat :=
  sum_list ((λ item, length (params_of param_sets item.1)) <$> estimators).

(** A computation with at most one outcome: run twice, it ends the same
    way. *)
Definition deterministic {A} (m : outcomes A) : Prop :=
  ∀ r1 r2, m r1 → m r2 → r1 = r2.

Fixpoint gen_Forall {A} (P : A → Prop) (g : gen A) : Prop :=
  match g with
  | GDone | GRaise _ => True
  | GYield a g' => P a ∧ gen_Forall P g'
  end.


(** A computation with the one outcome [r]. *)
Definition exactly {A} (m : outcomes A) (r : res A) : Prop :=
  ∀ r', m r' ↔ r' = r.

(** A collaborator that is a function, among those whose answer may vary. *)
Definition as_outcomes {A} (f : A → res value) : A → outcomes value :=
  λ arg, lift (f arg).

(** Two generators that yield the same tasks and end the same way. *)
Fixpoint gen_agree (g : gen (outcomes value)) (g' : gen (res value)) : Prop :=
  match g, g' with
  | GDone, GDone => True
  | GYield task g1, GYield task' g1' => exactly task task' ∧ gen_agree g1 g1'
  | GRaise e, GRaise e' => e = e'
  | _, _ => False
  end.


(** A result that unpacks into at least [k] items. *)
Definition arity_at_least (k : nat) (r : value) : Prop :=
  ∃ items, iter_value r = Ok items ∧ k ≤ length items.

#[global] Instance arity_at_least_dec (k : nat) (r : value)
  : Decision (arity_at_least k r).
Proof.
  unfold arity_at_least. destruct (iter_value r) as [items|e].
  - destruct (decide (k ≤ length items)).
    + left. by exists items.
    + right. by intros (items' & [= <-] & ?).
  - right. by intros (items' & [=] & ?).
Defined.

(** A result that can be iterated. *)
Definition iterable (r : value) : Prop := is_Ok (iter_value r).

#[global] Instance iterable_dec (r : value) : Decision (iterable r).
Proof.
  unfold iterable, is_Ok. destruct (iter_value r) as [items|e].
  - left. by exists items.
  - right. by intros [items [=]].
Defined.

(** The arguments of each scoring job of [cross_validate]: fold-major, then
    by estimator, then by parameter set, the index counting from 0 in each
    estimator's list. *)
Definition score_args (estimators : list (value * value))
    (param_sets : gmap value (list value)) (dout : list value)
    (scoring error_score : value)
    : list (value * value * value * value * value * value * value) :=
  tup ← dout;
  item ← estimators;
  imap (λ (i : nat) (params : value),
          (item.2, item.1, params, scoring, tup, VInt (Z.of_nat i), error_score))
    (params_of param_sets item.1).

(** A result whose name is not [None]. *)
Definition named_result (r : value) : Prop :=
  ∃ case est_name est,
    iter_value r ≫= unpack3 = Ok (case, est_name, est) ∧ est_name ≠ VNone.

#[global] Instance named_result_dec (r : value) : Decision (named_result r).
Proof.
  unfold named_result.
  destruct (iter_value r ≫= unpack3) as [[[c name] est]|e].
  - destruct (decide (name = VNone)) as [->|Hname].
    + right. intros (c' & name' & est' & Heq & H). by injection Heq as _ <- _.
    + left. by exists c, name, est.
  - right. by intros (c' & name' & est' & [=] & _).
Defined.

(** How many [(est_name, est)] pairs a dictionary of fitted estimators
    holds. *)
Definition entry_count (fitted : gmap value (list value)) : nat :=
  map_fold (λ _ l k, length l + k) 0 fitted.


(** A tuple has a case key the dictionary can be asked for. *)
Definition has_case_key (estimator_cases : gmap value (list value))
    (tup : value) : Prop :=
  is_Ok (getitem_last tup ≫= dict_contains estimator_cases).

(** ** Sample inputs *)

(** Two data tuples tagged ["X"] and ["Y"], one estimator for the first
    case and two for the second. *)
Definition sample_cases : gmap value (list value) :=
  <[VStr "X" := [VTuple [VStr "m1"; VObj 1]]]>
    (<[VStr "Y" := [VTuple [VStr "m1"; VObj 1]; VTuple [VStr "m2"; VObj 2]]]> ∅).

Definition sample_data : list value :=
  [VTuple [VObj 10; VStr "X"]; VTuple [VObj 11; VStr "Y"]].

(** A fitting job in which estimator 2 always fails: a failure is reported
    in the result, with the name [None]. *)
Definition sample_fit (arg : value) : res value :=
  match arg with
  | VTuple [_; VTuple [_; case]; VTuple [est_name; VObj id]] =>
      if decide (id = 2) then Ok (VTuple [case; VNone; VNone])
      else Ok (VTuple [case; est_name; VObj (100 + id)])
  | _ => Ok (VTuple [VNone; VNone; VNone])
  end.

(** A predicting job: the name of the estimator and its predictions. *)
Definition sample_predict (arg : value) : res value :=
  match arg with
  | VTuple [_; VTuple [est_name; _]] => Ok (VTuple [est_name; VObj 0])
  | _ => Ok (VTuple [VNone; VNone])
  end.

(** A predicting job that signs its result with a name of its own. *)
Definition sample_signed (name : string) (arg : value) : res value :=
  Ok (VTuple [VStr name; VObj 0]).

(** A job that raises. *)
Definition sample_raise (arg : value) : res value := Err (Raised "fit").

(** A matrix builder and a table wrapper that only record what they are
    given. *)
Definition sample_matrix (out : list value) (n : value)
    (fitted_estimators : list value) (folded_preds : bool) : res value :=
  Ok (VTuple [n; VList fitted_estimators]).

Definition sample_frame (M_ : value) (columns : list value) : res value :=
  Ok (VTuple [M_; VList columns]).

(** A scoring job: it records the fold, the estimator's name and the index
    of the parameter set. *)
Definition sample_score
    (args : value * value * value * value * value * value * value)
    : res value :=
  let '(est, est_name, params, scoring, tup, i, error_score) := args in
  Ok (VTuple [tup; est_name; i]).

Definition sample_estimators : list (value * value) :=
  [(VStr "a", VObj 1); (VStr "b", VObj 2)].

Definition sample_param_sets : gmap value (list value) :=
  <[VStr "a" := [VObj 20]]> (<[VStr "b" := [VObj 21]]> ∅).


(** ** The execution engine on functions *)

Section engine.
Implicit Types (g : gen (res value)) (n_jobs : Z) (verbose : bool).

Lemma Parallel_zero verbose g : Parallel 0 verbose g = Err ValueError.
Proof. done. Qed.

Lemma Parallel_serial n_jobs verbose g :
  n_jobs ≠ 0%Z → Parallel n_jobs verbose g = run_serial g.
Proof. intros Hn. unfold Parallel, res_engine. by rewrite decide_False. Qed.

Lemma res_bind_Ok {A B} (f : A → res B) (m : res A) (b : B) :
  m ≫= f = Ok b ↔ ∃ a, m = Ok a ∧ f a = Ok b.
Proof.
  destruct m as [a|e]; simpl; split.
  - eauto.
  - by intros (a' & [= <-] & ?).
  - done.
  - by intros (a' & [=] & ?).
Qed.

Lemma res_bind_Err {A B} (f : A → res B) (m : res A) (e : exn) :
  m ≫= f = Err e ↔ m = Err e ∨ ∃ a, m = Ok a ∧ f a = Err e.
Proof.
  destruct m as [a|e']; simpl; split.
  - eauto.
  - by intros [[=]|(a' & [= <-] & ?)].
  - intros [= ->]. by left.
  - by intros [[= ->]|(a' & [=] & ?)].
Qed.

Lemma run_serial_gen_seq g1 g2 :
  run_serial (gen_seq g1 g2)
  = rs1 ← run_serial g1;
    rs2 ← run_serial g2;
    Ok (rs1 ++ rs2).
Proof.
  induction g1 as [|task g1 IH|e]; simpl.
  - by destruct (run_serial g2).
  - destruct task as [r|e]; simpl; [|done]. rewrite IH.
    destruct (run_serial g1); simpl; [|done].
    by destruct (run_serial g2).
  - done.
Qed.

Lemma Parallel_gen_seq n_jobs verbose g1 g2 :
  Parallel n_jobs verbose (gen_seq g1 g2)
  = rs1 ← Parallel n_jobs verbose g1;
    rs2 ← Parallel n_jobs verbose g2;
    Ok (rs1 ++ rs2).
Proof.
  destruct (decide (n_jobs = 0%Z)) as [->|Hn]; [done|].
  rewrite !Parallel_serial by done. apply run_serial_gen_seq.
Qed.

Lemma run_serial_gen_for_yield {A} (f : A → res value) (l : list A) :
  run_serial (gen_for l (λ x, gen_yield (f x))) = mapM f l.
Proof.
  induction l as [|x l IH]; simpl; [done|].
  destruct (f x); simpl; [|done]. by rewrite IH.
Qed.

Lemma Parallel_gen_for_yield {A} n_jobs verbose (f : A → res value) (l : list A) :
  n_jobs ≠ 0%Z →
  Parallel n_jobs verbose (gen_for l (λ x, gen_yield (f x))) = mapM f l.
Proof.
  intros Hn. rewrite Parallel_serial by done. apply run_serial_gen_for_yield.
Qed.

Lemma mapM_res_Ok {A B} (f : A → res B) (l : list A) (k : list B) :
  mapM f l = Ok k ↔ Forall2 (λ x y, f x = Ok y) l k.
Proof.
  revert k. induction l as [|x l IH]; intros k; simpl.
  - split; [intros [= <-]; constructor|by inversion 1].
  - split.
    + intros (y & Hy & (k' & Hk' & [= <-])%res_bind_Ok)%res_bind_Ok.
      constructor; [done|by apply IH].
    + inversion 1 as [|? y ? k' Hy Hk']; subst.
      rewrite Hy; simpl. apply IH in Hk'. by rewrite Hk'.
Qed.

Lemma mapM_res_is_Ok {A B} (f : A → res B) (l : list A) :
  is_Ok (mapM f l) ↔ Forall (λ x, is_Ok (f x)) l.
Proof.
  induction l as [|x l IH]; simpl.
  - split; [constructor|by exists []].
  - rewrite Forall_cons, <- IH. split.
    + intros [k (y & Hy & (k' & Hk' & _)%res_bind_Ok)%res_bind_Ok].
      split; eexists; eauto.
    + intros [[y Hy] [k Hk]]. exists (y :: k). by rewrite Hy; simpl; rewrite Hk.
Qed.
End engine.

(** ** The dispatch primitive on functions *)

Section dispatch.
Context (function : value → res value).
Context (estimator_cases : gmap value (list value)).
Context (optional_args : option (list value)) (n_jobs : Z) (verbose : bool).

Let add_input := add_input_of optional_args.
Let job (tup est : value) : value := VTuple (add_input ++ [tup; est]).
Let dispatch (data : list value) : res (list value) :=
  _parallel_estimation function data estimator_cases optional_args n_jobs verbose.

Lemma gen_seq_assoc {A} (g1 g2 g3 : gen A) :
  gen_seq (gen_seq g1 g2) g3 = gen_seq g1 (gen_seq g2 g3).
Proof. induction g1; simpl; congruence. Qed.

Lemma gen_for_app {A B} (l1 l2 : list A) (body : A → gen B) :
  gen_for (l1 ++ l2) body = gen_seq (gen_for l1 body) (gen_for l2 body).
Proof.
  induction l1 as [|x l1 IH]; simpl; [done|]. by rewrite IH, gen_seq_assoc.
Qed.

Lemma dispatch_zero data : n_jobs = 0%Z → dispatch data = Err ValueError.
Proof.
  intros Hn. unfold dispatch, _parallel_estimation. rewrite Hn.
  apply Parallel_zero.
Qed.

Lemma dispatch_serial data :
  n_jobs ≠ 0%Z →
  dispatch data
  = run_serial (dispatch_jobs function data estimator_cases optional_args).
Proof. intros Hn. unfold dispatch, _parallel_estimation. by apply Parallel_serial. Qed.

Lemma dispatch_nil : n_jobs ≠ 0%Z → dispatch [] = Ok [].
Proof. intros Hn. by rewrite dispatch_serial. Qed.

Lemma dispatch_app data1 data2 :
  dispatch (data1 ++ data2)
  = rs1 ← dispatch data1; rs2 ← dispatch data2; Ok (rs1 ++ rs2).
Proof.
  unfold dispatch, _parallel_estimation.
  by rewrite gen_for_app, Parallel_gen_seq.
Qed.

Lemma dispatch_one tup :
  n_jobs ≠ 0%Z →
  dispatch [tup]
  = ests ← case_estimators estimator_cases tup;
    mapM (λ est, function (job tup est)) ests.
Proof.
  intros Hn. rewrite dispatch_serial by done. unfold dispatch_jobs; simpl.
  rewrite run_serial_gen_seq; simpl.
  destruct (case_estimators estimator_cases tup) as [ests|e]; simpl; [|done].
  unfold delayed.
  rewrite (run_serial_gen_for_yield (λ est, function (job tup est))).
  destruct (mapM _ ests); simpl; [|done]. by rewrite app_nil_r.
Qed.

Lemma dispatch_cons tup data :
  n_jobs ≠ 0%Z →
  dispatch (tup :: data)
  = ests ← case_estimators estimator_cases tup;
    rs ← mapM (λ est, function (job tup est)) ests;
    rs' ← dispatch data;
    Ok (rs ++ rs').
Proof.
  intros Hn. change (tup :: data) with ([tup] ++ data).
  rewrite dispatch_app, dispatch_one by done.
  by destruct (case_estimators estimator_cases tup).
Qed.

Lemma job_args_cons tup data :
  job_args add_input estimator_cases (tup :: data)
  = (job tup <$> estimators_of estimator_cases tup)
      ++ job_args add_input estimator_cases data.
Proof. done. Qed.

Lemma length_job_args data :
  length (job_args add_input estimator_cases data)
  = job_count estimator_cases data.
Proof.
  induction data as [|tup data IH]; [done|].
  rewrite job_args_cons, length_app, length_fmap, IH. done.
Qed.

(** When the dispatch returns, and what. *)
(** No result comes back from [n_jobs = 0]. *)
Lemma dispatch_Ok_nonzero data out : dispatch data = Ok out → n_jobs ≠ 0%Z.
Proof. intros Hd Hn. by rewrite (dispatch_zero _ Hn) in Hd. Qed.

Lemma dispatch_Ok data out :
  n_jobs ≠ 0%Z →
  dispatch data = Ok out
  ↔ Forall (λ tup, is_Ok (case_estimators estimator_cases tup)) data
    ∧ Forall2 (λ arg r, function arg = Ok r)
        (job_args add_input estimator_cases data) out.
Proof.
  intros Hn. revert out. induction data as [|tup data IH]; intros out.
  - rewrite dispatch_nil by done. split.
    + intros [= <-]. split; constructor.
    + intros [_ H]. by inversion H.
  - rewrite dispatch_cons, job_args_cons, Forall_cons by done.
    unfold estimators_of.
    destruct (case_estimators estimator_cases tup) as [ests|e]; simpl.
    + split.
      * intros (rs & Hrs & (rs' & Hrs' & [= <-])%res_bind_Ok)%res_bind_Ok.
        apply mapM_res_Ok in Hrs. apply IH in Hrs' as [? ?].
        split_and!; [by eexists|done|].
        apply Forall2_app; [|done]. by apply Forall2_fmap_l.
      * intros [[_ Hdata] (rs & rs' & Hrs & Hrs' & ->)%Forall2_app_inv_l].
        apply Forall2_fmap_l, mapM_res_Ok in Hrs. rewrite Hrs; simpl.
        assert (dispatch data = Ok rs') as -> by by apply IH. done.
    + split; [done|]. by intros [[[? [=]] _] _].
Qed.
End dispatch.

(** ** Claims on the dispatch primitive *)

(** C1. With [n_jobs] other than 0, when the mapping contains the case key
    of every data tuple and the work function returns on every job,
    [_parallel_estimation] returns
    [sum(len(estimator_cases[tup[-1]]) for tup in data)] results, and the
    result at each position is the value of the work function at
    [optional_args + (tup, est)], the pairs [(tup, est)] taken tuple-major
    in the order of [data] and estimator-minor in the order of the case's
    list. *)
Theorem parallel_estimation_results
    (function : value → res value) (data : list value)
    (estimator_cases : gmap value (list value))
    (optional_args : option (list value)) (n_jobs : Z) (verbose : bool) :
  n_jobs ≠ 0%Z →
  Forall (λ tup, ∃ key, getitem_last tup = Ok key
                        ∧ dict_contains estimator_cases key = Ok true) data →
  Forall (λ arg, is_Ok (function arg))
    (job_args (add_input_of optional_args) estimator_cases data) →
  ∃ out,
    _parallel_estimation function data estimator_cases optional_args
      n_jobs verbose = Ok out
    ∧ length out = job_count estimator_cases data
    ∧ Forall2 (λ arg r, function arg = Ok r)
        (job_args (add_input_of optional_args) estimator_cases data) out.
Proof.
  intros Hn Hkeys Hjobs.
  apply mapM_res_is_Ok in Hjobs as [out Hout]. apply mapM_res_Ok in Hout.
  exists out. split_and!; [|by rewrite <- (Forall2_length _ _ _ Hout),
                              length_job_args|done].
  apply dispatch_Ok; [done|]. split; [|done].
  eapply Forall_impl; [exact Hkeys|]. intros tup (key & Hkey & Hin); simpl in *.
  unfold case_estimators, dict_contains, dict_getitem in *. rewrite Hkey; simpl.
  destruct (hashable key); [|done]. injection Hin as Hin.
  apply bool_decide_eq_true in Hin as [ests ->]. by exists ests.
Qed.

(** With one job after the other, a job that raises takes the whole batch
    with it. *)
Example parallel_estimation_job_raises :
  _parallel_estimation sample_raise sample_data sample_cases None 1 false
  = Err (Raised "fit").
Proof. reflexivity. Qed.

(** [n_jobs = 0] is refused before any job. *)
Example parallel_estimation_no_worker :
  _parallel_estimation sample_fit sample_data sample_cases None 0 false
  = Err ValueError.
Proof. reflexivity. Qed.

Lemma parallel_estimation_results_witness :
  ∃ out,
    _parallel_estimation sample_fit sample_data sample_cases (Some [VObj 7])
      (-1) false = Ok out
    ∧ length out = job_count sample_cases sample_data
    ∧ Forall2 (λ arg r, sample_fit arg = Ok r)
        (job_args (add_input_of (Some [VObj 7])) sample_cases sample_data) out.
Proof.
  apply (parallel_estimation_results sample_fit sample_data sample_cases
           (Some [VObj 7]) (-1) false).
  - discriminate.
  - repeat constructor; eexists; split; reflexivity.
  - repeat constructor; eexists; reflexivity.
Defined.

(** ** The orchestrators on functions *)

Section orchestrators.
Context (_fit_predict_base _predict_base _predict : value → res value).
Context (_fit_estimator : value → res value).
Context (_construct_matrix : list value → value → list value → bool → res value).
Context (DataFrame : value → list value → res value).

Lemma base_predict_selected data estimator_cases n folded_preds fit columns
    as_df n_jobs verbose :
  base_predict _fit_predict_base _predict_base _predict _construct_matrix
    DataFrame data estimator_cases n folded_preds fit columns as_df
    n_jobs verbose
  = predict_with _construct_matrix DataFrame
      (selected_function _fit_predict_base _predict_base _predict
         folded_preds fit)
      data estimator_cases n folded_preds columns as_df n_jobs verbose.
Proof. by destruct folded_preds, fit. Qed.

Lemma predict_with_dispatch_Err function data estimator_cases n folded_preds
    columns as_df n_jobs verbose e :
  _parallel_estimation function data estimator_cases None n_jobs verbose
    = Err e →
  predict_with _construct_matrix DataFrame function data estimator_cases n
    folded_preds columns as_df n_jobs verbose = Err e.
Proof. unfold predict_with. by intros ->. Qed.

Lemma fit_estimators_dispatch_Err data y estimator_cases n_jobs verbose e :
  _parallel_estimation _fit_estimator data estimator_cases (Some [y])
    n_jobs verbose = Err e →
  fit_estimators _fit_estimator data y estimator_cases n_jobs verbose = Err e.
Proof. unfold fit_estimators. by intros ->. Qed.
End orchestrators.

Section missing_key.
Context (estimator_cases : gmap value (list value)).
Context (tup key : value).
Hypothesis Hkey : getitem_last tup = Ok key.
Hypothesis Habsent : dict_contains estimator_cases key = Ok false.

Lemma missing_key_lookup : case_estimators estimator_cases tup = Err KeyError.
Proof using Hkey Habsent.
  unfold case_estimators, dict_contains, dict_getitem in *.
  rewrite Hkey; simpl. destruct (hashable key); [|done].
  injection Habsent as Hb. apply bool_decide_eq_false in Hb.
  destruct (estimator_cases !! key); [|done]. by destruct Hb.
Qed.

Lemma dispatch_missing_key_Err function data optional_args n_jobs verbose :
  tup ∈ data →
  is_Err (_parallel_estimation function data estimator_cases optional_args
            n_jobs verbose).
Proof using Hkey Habsent.
  intros Hin.
  destruct (_parallel_estimation _ _ _ _ _ _) as [out|e] eqn:Hd; [|by exists e].
  pose proof (dispatch_Ok_nonzero _ _ _ _ _ _ _ Hd) as Hn.
  apply dispatch_Ok in Hd as [Hd _]; [|done].
  rewrite Forall_forall in Hd. destruct (Hd _ Hin) as [ests Hests].
  by rewrite missing_key_lookup in Hests.
Qed.

Lemma dispatch_missing_key_KeyError function data optional_args n_jobs verbose :
  n_jobs ≠ 0%Z →
  tup ∈ data →
  Forall (has_case_key estimator_cases) data →
  (∀ arg, is_Ok (function arg)) →
  _parallel_estimation function data estimator_cases optional_args
    n_jobs verbose = Err KeyError.
Proof using Hkey Habsent.
  intros Hn Hin Hwf Htotal.
  induction data as [|t data IH]; [by inversion Hin|].
  rewrite dispatch_cons by done. apply Forall_cons in Hwf as [Ht Hwf].
  destruct (case_estimators estimator_cases t) as [ests|e] eqn:Hests; simpl.
  - assert (is_Ok (mapM (λ est, function
              (VTuple (add_input_of optional_args ++ [t; est]))) ests))
      as [rs ->] by (apply mapM_res_is_Ok, Forall_forall; auto).
    simpl. apply elem_of_cons in Hin as [<-|Hin].
    + by rewrite missing_key_lookup in Hests.
    + by rewrite IH.
  - destruct Ht as [b Hb].
    unfold case_estimators, dict_contains, dict_getitem in *.
    destruct (getitem_last t) as [k|]; simpl in *; [|done].
    destruct (hashable k); [|done].
    destruct (estimator_cases !! k); congruence.
Qed.
End missing_key.

(** C5 as the code has it.  A data tuple whose case key is absent from the
    mapping makes the dispatch raise: no result list comes back, whatever
    the work function and whatever [n_jobs], and so neither [base_predict]
    nor [fit_estimators] returns.  What is raised is the [KeyError] of the
    lookup when nothing else can fail: [n_jobs] is not 0, the jobs return
    and every data tuple carries a case key. *)
Theorem missing_case_key_is_fatal
    (estimator_cases : gmap value (list value)) (data : list value)
    (tup key : value) :
  tup ∈ data →
  getitem_last tup = Ok key →
  dict_contains estimator_cases key = Ok false →
  (∀ function optional_args n_jobs verbose,
     is_Err (_parallel_estimation function data estimator_cases optional_args
               n_jobs verbose)
     ∧ (n_jobs ≠ 0%Z →
        Forall (has_case_key estimator_cases) data →
        (∀ arg, is_Ok (function arg)) →
        _parallel_estimation function data estimator_cases optional_args
          n_jobs verbose = Err KeyError))
  ∧ (∀ _fit_predict_base _predict_base _predict _construct_matrix DataFrame
       n folded_preds fit columns as_df n_jobs verbose,
     is_Err (base_predict _fit_predict_base _predict_base _predict
               _construct_matrix DataFrame data estimator_cases n
               folded_preds fit columns as_df n_jobs verbose)
     ∧ (n_jobs ≠ 0%Z →
        Forall (has_case_key estimator_cases) data →
        (∀ arg, is_Ok (_fit_predict_base arg) ∧ is_Ok (_predict_base arg)
                ∧ is_Ok (_predict arg)) →
        base_predict _fit_predict_base _predict_base _predict
          _construct_matrix DataFrame data estimator_cases n
          folded_preds fit columns as_df n_jobs verbose = Err KeyError))
  ∧ (∀ _fit_estimator y n_jobs verbose,
     is_Err (fit_estimators _fit_estimator data y estimator_cases
               n_jobs verbose)
     ∧ (n_jobs ≠ 0%Z →
        Forall (has_case_key estimator_cases) data →
        (∀ arg, is_Ok (_fit_estimator arg)) →
        fit_estimators _fit_estimator data y estimator_cases
          n_jobs verbose = Err KeyError)).
Proof.
  intros Hin Hkey Habsent. split_and!.
  - intros function optional_args n_jobs verbose. split.
    + by eapply dispatch_missing_key_Err.
    + intros. by eapply dispatch_missing_key_KeyError.
  - intros fpb pb p cm df n folded_preds fit columns as_df n_jobs verbose.
    rewrite base_predict_selected. split.
    + destruct (dispatch_missing_key_Err estimator_cases tup key Hkey Habsent
                  (selected_function fpb pb p folded_preds fit) data None
                  n_jobs verbose Hin) as [e He].
      exists e. by apply predict_with_dispatch_Err.
    + intros Hn Hwf Htotal. apply predict_with_dispatch_Err.
      eapply dispatch_missing_key_KeyError; [done..|].
      intros arg. destruct (Htotal arg) as (? & ? & ?).
      by destruct folded_preds, fit.
  - intros fe y n_jobs verbose. split.
    + destruct (dispatch_missing_key_Err estimator_cases tup key Hkey Habsent
                  fe data (Some [y]) n_jobs verbose Hin) as [e He].
      exists e. by apply fit_estimators_dispatch_Err.
    + intros. apply fit_estimators_dispatch_Err.
      by eapply dispatch_missing_key_KeyError.
Qed.

Lemma missing_case_key_is_fatal_witness :
  is_Err (_parallel_estimation sample_fit
            (sample_data ++ [VTuple [VObj 12; VStr "Z"]]) sample_cases None
            (-1) false)
  ∧ _parallel_estimation sample_fit
      (sample_data ++ [VTuple [VObj 12; VStr "Z"]]) sample_cases None
      (-1) false = Err KeyError.
Proof.
  destruct (missing_case_key_is_fatal sample_cases
              (sample_data ++ [VTuple [VObj 12; VStr "Z"]])
              (VTuple [VObj 12; VStr "Z"]) (VStr "Z")) as [Hd _].
  - apply elem_of_app. right. apply list_elem_of_singleton. reflexivity.
  - reflexivity.
  - reflexivity.
  - destruct (Hd sample_fit None (-1)%Z false) as [Herr Hkey].
    split; [exact Herr|]. apply Hkey.
    + discriminate.
    + repeat constructor; eexists; reflexivity.
    + intros arg. unfold sample_fit. repeat case_match; eexists; reflexivity.
Defined.

(** C5 as the specification words it fails: the second data tuple has a
    case key the mapping lacks, the job of the first raises before that key
    is looked up, and with one job after the other what the dispatch raises
    is the exception of the job, which is no lookup error. *)
Lemma missing_case_key_counterexample :
  VTuple [VObj 12; VStr "Z"]
    ∈ [VTuple [VObj 10; VStr "X"]; VTuple [VObj 12; VStr "Z"]]
  ∧ getitem_last (VTuple [VObj 12; VStr "Z"]) = Ok (VStr "Z")
  ∧ dict_contains sample_cases (VStr "Z") = Ok false
  ∧ _parallel_estimation sample_raise
      [VTuple [VObj 10; VStr "X"]; VTuple [VObj 12; VStr "Z"]]
      sample_cases None 1 false = Err (Raised "fit")
  ∧ ¬ is_lookup_error (Raised "fit").
Proof.
  split_and!; try reflexivity.
  - right. left.
  - by intros [?|?].
Qed.

(** C10. A data tuple whose case maps to the empty estimator list schedules
    no job and raises nothing: on its own, with [n_jobs] other than 0, it
    gives the empty result list, and among other tuples the dispatch does
    exactly what it does without it. *)
Theorem empty_case_schedules_nothing
    (function : value → res value) (estimator_cases : gmap value (list value))
    (optional_args : option (list value)) (n_jobs : Z) (verbose : bool)
    (before after : list value) (tup key : value) :
  getitem_last tup = Ok key →
  dict_getitem estimator_cases key = Ok [] →
  (n_jobs ≠ 0%Z →
   _parallel_estimation function [tup] estimator_cases optional_args
     n_jobs verbose = Ok [])
  ∧ _parallel_estimation function (before ++ tup :: after) estimator_cases
      optional_args n_jobs verbose
    = _parallel_estimation function (before ++ after) estimator_cases
        optional_args n_jobs verbose.
Proof.
  intros Hkey Hempty.
  assert (n_jobs ≠ 0%Z →
          _parallel_estimation function [tup] estimator_cases optional_args
            n_jobs verbose = Ok []) as Hone.
  { intros Hn. rewrite dispatch_one by done. unfold case_estimators.
    rewrite Hkey; simpl. by rewrite Hempty. }
  split; [done|].
  destruct (decide (n_jobs = 0%Z)) as [Hz|Hn].
  { by rewrite !dispatch_zero. }
  change (tup :: after) with ([tup] ++ after).
  rewrite !dispatch_app, Hone by done. simpl.
  by destruct (_parallel_estimation function after _ _ _ _).
Qed.

Lemma empty_case_schedules_nothing_witness :
  ((-1)%Z ≠ 0%Z →
   _parallel_estimation sample_fit [VTuple [VObj 12; VStr "W"]]
     (<[VStr "W" := []]> sample_cases) None (-1) false = Ok [])
  ∧ _parallel_estimation sample_fit
      ([VTuple [VObj 10; VStr "X"]] ++ VTuple [VObj 12; VStr "W"]
         :: [VTuple [VObj 11; VStr "Y"]])
      (<[VStr "W" := []]> sample_cases) None (-1) false
    = _parallel_estimation sample_fit
        ([VTuple [VObj 10; VStr "X"]] ++ [VTuple [VObj 11; VStr "Y"]])
        (<[VStr "W" := []]> sample_cases) None (-1) false.
Proof.
  apply (empty_case_schedules_nothing sample_fit
           (<[VStr "W" := []]> sample_cases) None (-1) false
           [VTuple [VObj 10; VStr "X"]] [VTuple [VObj 11; VStr "Y"]]
           (VTuple [VObj 12; VStr "W"]) (VStr "W")); reflexivity.
Defined.

(** ** The column filter *)

Section pre_check.
Implicit Types (out columns : list value) (cols : list (list value)).

Lemma unpack3_fmap_seq {A} (f : nat → A) (k : nat) :
  unpack3 (f <$> seq 0 k)
  = if decide (k = 3) then Ok (f 0, f 1, f 2) else Err ValueError.
Proof. by destruct k as [|[|[|[|k]]]]. Qed.

Lemma unpack2_fmap_seq {A} (f : nat → A) (k : nat) :
  unpack2 (f <$> seq 0 k)
  = if decide (k = 2) then Ok (f 0, f 1) else Err ValueError.
Proof. by destruct k as [|[|[|k]]]. Qed.

Lemma iter_value_Err r e : iter_value r = Err e → e = TypeError.
Proof. destruct r; simpl; congruence. Qed.

Lemma mapM_iter_value_Err out e : mapM iter_value out = Err e → e = TypeError.
Proof.
  induction out as [|r out IH]; simpl; [done|].
  intros [Hr|(items & _ & [H|(cols & _ & [=])]%res_bind_Err)]%res_bind_Err.
  - by eapply iter_value_Err.
  - by apply IH.
Qed.

Lemma first_items_cols out cols :
  mapM iter_value out = Ok cols → omap (λ c, c !! 0) cols = first_items out.
Proof.
  intros H%mapM_res_Ok. unfold first_items.
  induction H as [|r c out cols Hr _ IH]; csimpl; [done|].
  rewrite Hr, IH. by destruct c.
Qed.

(** What [_pre_check_estimators] computes: the unpacking goes through when
    [zip] yields three rows, or else two. *)
Lemma pre_check_spec out columns :
  _pre_check_estimators out columns
  = cols ← mapM iter_value out;
    if decide (zip_width cols = 3 ∨ zip_width cols = 2)
    then Ok (filter (λ ce, ce ∈ first_items out) columns)
    else Err ValueError.
Proof.
  unfold _pre_check_estimators, zip_star.
  destruct (mapM iter_value out) as [cols|e] eqn:Hcols; simpl.
  - unfold zip_rows. rewrite unpack3_fmap_seq, unpack2_fmap_seq.
    rewrite <- (first_items_cols _ _ Hcols).
    repeat case_decide; simpl; try done; lia.
  - by rewrite (mapM_iter_value_Err _ _ Hcols).
Qed.

Lemma foldr_min_swap (a b : nat) (l : list nat) :
  b `min` foldr Nat.min a l = a `min` foldr Nat.min b l.
Proof. induction l as [|x l IH]; simpl; lia. Qed.

Lemma zip_width_cons c cs :
  cs ≠ [] → zip_width (c :: cs) = length c `min` zip_width cs.
Proof.
  destruct cs as [|c' cs]; [done|]. intros _. apply foldr_min_swap.
Qed.

Lemma zip_width_uniform k cols :
  cols ≠ [] → Forall (λ c, length c = k) cols → zip_width cols = k.
Proof.
  induction 2 as [|c cs Hc Hcs IH]; [done|].
  destruct cs as [|c' cs]; [done|]. rewrite zip_width_cons, IH by done. lia.
Qed.

Lemma zip_width_Permutation cols cols' :
  cols ≡ₚ cols' → zip_width cols = zip_width cols'.
Proof.
  induction 1 as [|c cs cs' Hcs IH|c c' cs|cs cs' cs'' _ IH1 _ IH2].
  - done.
  - destruct cs as [|c1 cs].
    + by apply Permutation_nil_l in Hcs as ->.
    + assert (cs' ≠ []) by (intros ->; by apply Permutation_nil_r in Hcs).
      rewrite (zip_width_cons c (c1 :: cs)), (zip_width_cons c cs') by done.
      by rewrite IH.
  - destruct cs as [|c1 cs]; [simpl; lia|].
    rewrite (zip_width_cons c' (c :: c1 :: cs)), (zip_width_cons c (c1 :: cs)),
      (zip_width_cons c (c' :: c1 :: cs)), (zip_width_cons c' (c1 :: cs))
      by done. lia.
  - congruence.
Qed.

(** The sequences of the results, up to the order of the results. *)
Lemma mapM_iter_value_Permutation out out' :
  out ≡ₚ out' →
  match mapM iter_value out, mapM iter_value out' with
  | Ok cols, Ok cols' => cols ≡ₚ cols'
  | Err _, Err _ => True
  | _, _ => False
  end.
Proof.
  induction 1 as [|r out out' _ IH|r r' out|out out' out'' _ IH1 _ IH2]; simpl.
  - done.
  - destruct (iter_value r); simpl; [|done].
    destruct (mapM iter_value out), (mapM iter_value out'); simpl; try done.
    by constructor.
  - destruct (iter_value r), (iter_value r'); simpl; try done.
    destruct (mapM iter_value out); simpl; [|done]. by constructor.
  - destruct (mapM iter_value out), (mapM iter_value out'),
      (mapM iter_value out''); try done. by etrans.
Qed.

Lemma pre_check_Permutation out out' columns :
  out ≡ₚ out' →
  _pre_check_estimators out columns = _pre_check_estimators out' columns.
Proof.
  intros Hperm. rewrite !pre_check_spec.
  pose proof (mapM_iter_value_Permutation _ _ Hperm) as Hcols.
  destruct (mapM iter_value out) as [cols|e] eqn:He,
    (mapM iter_value out') as [cols'|e'] eqn:He'; simpl; try done.
  - rewrite (zip_width_Permutation _ _ Hcols).
    case_decide; [|done]. f_equal. apply list_filter_iff. intros ce.
    unfold first_items. by rewrite Hperm.
  - by rewrite (mapM_iter_value_Err _ _ He), (mapM_iter_value_Err _ _ He').
Qed.

Lemma uniform_arity_cols k out :
  Forall (has_arity k) out →
  ∃ cols, mapM iter_value out = Ok cols ∧ Forall (λ c, length c = k) cols
          ∧ length cols = length out.
Proof.
  induction 1 as [|r out (items & Hr & Hlen) _ (cols & Hcols & Hk & Hl)]; simpl.
  - by exists [].
  - exists (items :: cols). rewrite Hr; simpl. rewrite Hcols; simpl.
    split_and!; [done|by constructor|by rewrite Hl].
Qed.
End pre_check.

Section predict.
Context (_construct_matrix : list value → value → list value → bool → res value).
Context (DataFrame : value → list value → res value).
Context (function : value → res value).

(** When [base_predict] returns, and what, from the dispatch on. *)
Lemma predict_with_Ok data estimator_cases n folded_preds columns as_df
    n_jobs verbose M_ fitted :
  predict_with _construct_matrix DataFrame function data estimator_cases n
    folded_preds columns as_df n_jobs verbose = Ok (M_, fitted)
  ↔ ∃ out M0,
      _parallel_estimation function data estimator_cases None n_jobs verbose
        = Ok out
      ∧ _pre_check_estimators out columns = Ok fitted
      ∧ _construct_matrix out n fitted folded_preds = Ok M0
      ∧ (if as_df then DataFrame M0 fitted = Ok M_ else M_ = M0).
Proof.
  unfold predict_with. split.
  - intros (out & Hout & (fitted' & Hf & (M0 & HM0 & (M1 & HM1 & [= <- <-])
      %res_bind_Ok)%res_bind_Ok)%res_bind_Ok)%res_bind_Ok.
    exists out, M0. destruct (_pre_check_estimators out columns); [|done].
    injection Hf as ->. split_and!; try done.
    destruct as_df; [done|]. by injection HM1.
  - intros (out & M0 & -> & Hf & HM0 & HM). simpl. rewrite Hf; simpl.
    rewrite HM0; simpl. destruct as_df; [by rewrite HM|by subst].
Qed.
End predict.

(** ** Claims on the prediction orchestrator *)

(** C6. On a non-empty result list whose results all unpack into three
    items, or all into two, [_pre_check_estimators] succeeds and filters the
    candidate columns by the first items of the results.  With three items
    the three-element unpacking goes through; with two it raises
    [ValueError] and the two-element unpacking that follows goes through:
    the names come out of either. *)
Theorem pre_check_uniform_arity (out columns : list value) :
  out ≠ [] →
  Forall (has_arity 3) out ∨ Forall (has_arity 2) out →
  _pre_check_estimators out columns
    = Ok (filter (λ ce, ce ∈ first_items out) columns)
  ∧ (Forall (has_arity 3) out →
     ∃ c2 c3, (rows ← zip_star out; unpack3 rows) = Ok (first_items out, c2, c3))
  ∧ (Forall (has_arity 2) out →
     (rows ← zip_star out; unpack3 rows) = Err ValueError
     ∧ ∃ c2, (rows ← zip_star out; unpack2 rows) = Ok (first_items out, c2)).
Proof.
  intros Hne Harity. split_and!.
  - rewrite pre_check_spec.
    assert (∃ cols, mapM iter_value out = Ok cols
                    ∧ (zip_width cols = 3 ∨ zip_width cols = 2))
      as (cols & -> & Hw).
    { destruct Harity as [H|H];
        apply uniform_arity_cols in H as (cols & Hcols & Hk & Hlen);
        exists cols; (split; [done|]);
        [left|right]; apply zip_width_uniform; try done;
        intros ->; by destruct out. }
    simpl. by rewrite decide_True.
  - intros (cols & Hcols & Hk & Hlen)%uniform_arity_cols.
    unfold zip_star, zip_rows. rewrite Hcols; simpl.
    rewrite unpack3_fmap_seq, (zip_width_uniform 3), decide_True; try done.
    + rewrite (first_items_cols _ _ Hcols). eauto.
    + intros ->. by destruct out.
  - intros (cols & Hcols & Hk & Hlen)%uniform_arity_cols.
    unfold zip_star, zip_rows. rewrite Hcols; simpl.
    rewrite unpack3_fmap_seq, unpack2_fmap_seq, (zip_width_uniform 2);
      [|by intros ->; destruct out|done].
    rewrite decide_False, decide_True by done.
    rewrite (first_items_cols _ _ Hcols). eauto.
Qed.

Lemma pre_check_uniform_arity_witness :
  _pre_check_estimators
    [VTuple [VStr "svm"; VObj 0]; VTuple [VStr "rf"; VObj 0]]
    [VStr "rf"; VStr "svm"; VStr "knn"]
  = Ok [VStr "rf"; VStr "svm"].
Proof.
  destruct (pre_check_uniform_arity
              [VTuple [VStr "svm"; VObj 0]; VTuple [VStr "rf"; VObj 0]]
              [VStr "rf"; VStr "svm"; VStr "knn"]) as [H _].
  - discriminate.
  - right. repeat constructor; eexists; split; reflexivity.
  - rewrite H. reflexivity.
Defined.

(** C9. When the dispatch of [base_predict] yields the empty result list,
    [base_predict] raises the [ValueError] of the unpacking in
    [_pre_check_estimators]: it returns no matrix and no column list. *)
Theorem base_predict_empty_dispatch
    (_fit_predict_base _predict_base _predict : value → res value)
    (_construct_matrix : list value → value → list value → bool → res value)
    (DataFrame : value → list value → res value)
    (data : list value) (estimator_cases : gmap value (list value))
    (n : value) (folded_preds fit : bool) (columns : list value)
    (as_df : bool) (n_jobs : Z) (verbose : bool) :
  _parallel_estimation
    (selected_function _fit_predict_base _predict_base _predict
       folded_preds fit)
    data estimator_cases None n_jobs verbose = Ok [] →
  base_predict _fit_predict_base _predict_base _predict _construct_matrix
    DataFrame data estimator_cases n folded_preds fit columns as_df
    n_jobs verbose = Err ValueError.
Proof.
  intros Hout. rewrite base_predict_selected. unfold predict_with.
  by rewrite Hout.
Qed.

Lemma base_predict_empty_dispatch_witness :
  base_predict sample_predict sample_predict sample_predict sample_matrix
    sample_frame [] sample_cases (VInt 4) true true
    [VStr "m1"; VStr "m2"] false (-1) false = Err ValueError
  ∧ base_predict sample_predict sample_predict sample_predict sample_matrix
      sample_frame [VTuple [VObj 12; VStr "W"]]
      (<[VStr "W" := []]> sample_cases) (VInt 4) false true
      [VStr "m1"; VStr "m2"] true (-1) false = Err ValueError.
Proof.
  split; apply base_predict_empty_dispatch; reflexivity.
Defined.

(** C7. In every monad of computations, [base_predict] is its dispatch and
    collection run with [_fit_predict_base] when [folded_preds] and [fit] are
    set, with [_predict_base] when only [folded_preds] is, and with
    [_predict] when [folded_preds] is not, whatever [fit].  The selection is
    no step of the computation, so it has no effect, and the functions not
    selected have no part in the call. *)
Theorem base_predict_selects_function
    {M : Type → Type} `{!MRet M, !MBind M, !MThrow exn M, !Engine M}
    (_fit_predict_base _predict_base _predict : value → M value)
    (_construct_matrix : list value → value → list value → bool → M value)
    (DataFrame : value → list value → M value)
    (data : list value) (estimator_cases : gmap value (list value))
    (n : value) (columns : list value) (as_df : bool)
    (n_jobs : Z) (verbose : bool) :
  base_predict _fit_predict_base _predict_base _predict _construct_matrix
    DataFrame data estimator_cases n true true columns as_df n_jobs verbose
  = predict_with _construct_matrix DataFrame _fit_predict_base data
      estimator_cases n true columns as_df n_jobs verbose
  ∧ base_predict _fit_predict_base _predict_base _predict _construct_matrix
      DataFrame data estimator_cases n true false columns as_df n_jobs verbose
    = predict_with _construct_matrix DataFrame _predict_base data
        estimator_cases n true columns as_df n_jobs verbose
  ∧ (∀ fit,
       base_predict _fit_predict_base _predict_base _predict
         _construct_matrix DataFrame data estimator_cases n false fit
         columns as_df n_jobs verbose
       = predict_with _construct_matrix DataFrame _predict data
           estimator_cases n false columns as_df n_jobs verbose)
  ∧ (∀ other1 other2,
       base_predict _fit_predict_base other1 other2 _construct_matrix
         DataFrame data estimator_cases n true true columns as_df
         n_jobs verbose
       = base_predict _fit_predict_base _predict_base _predict
           _construct_matrix DataFrame data estimator_cases n true true
           columns as_df n_jobs verbose
       ∧ base_predict other1 _predict_base other2 _construct_matrix
           DataFrame data estimator_cases n true false columns as_df
           n_jobs verbose
         = base_predict _fit_predict_base _predict_base _predict
             _construct_matrix DataFrame data estimator_cases n true false
             columns as_df n_jobs verbose
       ∧ ∀ fit fit',
           base_predict other1 other2 _predict _construct_matrix
             DataFrame data estimator_cases n false fit columns as_df
             n_jobs verbose
           = base_predict _fit_predict_base _predict_base _predict
               _construct_matrix DataFrame data estimator_cases n false fit'
               columns as_df n_jobs verbose).
Proof.
  split_and!; [reflexivity|reflexivity|intros fit; reflexivity|].
  intros other1 other2. split_and!; [reflexivity|reflexivity|].
  intros fit fit'. reflexivity.
Qed.

(** The three selections told apart by what comes back. *)
Example base_predict_selects_function_sample :
  let columns := [VStr "fit_predict_base"; VStr "predict_base"; VStr "predict"] in
  let run folded_preds fit :=
    base_predict (sample_signed "fit_predict_base")
      (sample_signed "predict_base") (sample_signed "predict")
      sample_matrix sample_frame sample_data sample_cases (VInt 4)
      folded_preds fit columns false (-1) false in
  snd <$> run true true = Ok [VStr "fit_predict_base"]
  ∧ snd <$> run true false = Ok [VStr "predict_base"]
  ∧ snd <$> run false true = Ok [VStr "predict"]
  ∧ snd <$> run false false = Ok [VStr "predict"].
Proof. repeat split; reflexivity. Qed.

(** ** The fit orchestrator *)

Section fit_loop.
Implicit Types (out : list value) (fitted : gmap value (list value)).

(** One turn of the loop on a result with a name. *)
Lemma fit_estimators_loop_keep r out fitted c name est :
  iter_value r ≫= unpack3 = Ok (c, name, est) →
  name ≠ VNone →
  hashable c = true →
  fit_estimators_loop (r :: out) fitted
  = fit_estimators_loop out
      (<[c := default [] (fitted !! c) ++ [VTuple [name; est]]]> fitted).
Proof.
  intros (items & Hr & Hitems)%res_bind_Ok Hname Hhash. simpl.
  rewrite Hr; simpl. rewrite Hitems; simpl. rewrite decide_True by done.
  unfold dict_contains, dict_getitem. rewrite Hhash; simpl.
  destruct (fitted !! c) as [l|] eqn:Hl; simpl.
  - by rewrite Hl.
  - rewrite lookup_insert_eq; simpl. by rewrite insert_insert_eq.
Qed.

(** One turn of the loop on a result whose name is [None]. *)
Lemma fit_estimators_loop_drop r out fitted c est :
  iter_value r ≫= unpack3 = Ok (c, VNone, est) →
  fit_estimators_loop (r :: out) fitted = fit_estimators_loop out fitted.
Proof.
  intros (items & Hr & Hitems)%res_bind_Ok. simpl.
  rewrite Hr; simpl. by rewrite Hitems.
Qed.

Lemma fit_estimators_loop_Ok_inv r out fitted fitted' :
  fit_estimators_loop (r :: out) fitted = Ok fitted' → fit_result r.
Proof.
  simpl. intros (items & Hr & ([[c name] est] & Hitems & H)%res_bind_Ok)
    %res_bind_Ok.
  exists c, name, est. rewrite Hr; simpl. split; [done|]. intros Hname.
  rewrite decide_True in H by done. unfold dict_contains in H.
  by destruct (hashable c).
Qed.

Lemma fitted_of_cons key r out :
  fitted_of key (r :: out)
  = match iter_value r ≫= unpack3 with
    | Ok (c, name, est) =>
        if decide (name ≠ VNone ∧ c = key)
        then VTuple [name; est] :: fitted_of key out
        else fitted_of key out
    | Err _ => fitted_of key out
    end.
Proof.
  unfold fitted_of; csimpl.
  destruct (iter_value r ≫= unpack3) as [[[c name] est]|]; [|done].
  by case_decide.
Qed.

(** What the loop leaves under each key. *)
Lemma fit_estimators_loop_lookup out fitted fitted' key :
  fit_estimators_loop out fitted = Ok fitted' →
  fitted' !! key
  = match fitted !! key with
    | Some l => Some (l ++ fitted_of key out)
    | None => if decide (fitted_of key out = []) then None
              else Some (fitted_of key out)
    end.
Proof.
  revert fitted. induction out as [|r out IH]; intros fitted Hloop.
  - injection Hloop as <-. simpl.
    destruct (fitted !! key); [by rewrite app_nil_r|done].
  - destruct (fit_estimators_loop_Ok_inv _ _ _ _ Hloop)
      as (c & name & est & Hr & Hhash).
    rewrite fitted_of_cons, Hr.
    destruct (decide (name = VNone)) as [->|Hname].
    + rewrite (fit_estimators_loop_drop _ _ _ _ _ Hr) in Hloop.
      rewrite decide_False by (by intros [? _]). by apply IH.
    + rewrite (fit_estimators_loop_keep _ _ _ _ _ _ Hr Hname (Hhash Hname))
        in Hloop.
      rewrite (IH _ Hloop). destruct (decide (c = key)) as [->|Hc].
      * rewrite lookup_insert_eq, decide_True by done.
        destruct (fitted !! key); simpl; [by rewrite <- app_assoc|done].
      * rewrite lookup_insert_ne by done.
        by rewrite (decide_False (P := name ≠ VNone ∧ c = key))
          by (by intros [_ ?]).
Qed.

Lemma fit_estimators_loop_total out fitted :
  Forall fit_result out → is_Ok (fit_estimators_loop out fitted).
Proof.
  intros Hout. revert fitted.
  induction Hout as [|r out (c & name & est & Hr & Hhash) _ IH]; intros fitted.
  - by eexists.
  - destruct (decide (name = VNone)) as [->|Hname].
    + rewrite (fit_estimators_loop_drop _ _ _ _ _ Hr). apply IH.
    + rewrite (fit_estimators_loop_keep _ _ _ _ _ _ Hr Hname (Hhash Hname)).
      apply IH.
Qed.

Lemma elem_of_fitted_of key out entry :
  entry ∈ fitted_of key out
  ↔ ∃ r name est, r ∈ out ∧ iter_value r ≫= unpack3 = Ok (key, name, est)
                  ∧ name ≠ VNone ∧ entry = VTuple [name; est].
Proof.
  unfold fitted_of. rewrite list_elem_of_omap. split.
  - intros (r & Hin & H).
    destruct (iter_value r ≫= unpack3) as [[[c name] est]|] eqn:Hr; [|done].
    case_decide as Hd; [|done]. destruct Hd as [? ->].
    injection H as <-. by exists r, name, est.
  - intros (r & name & est & Hin & Hr & Hname & ->). exists r.
    rewrite Hr. by rewrite decide_True.
Qed.
End fit_loop.

Lemma lift_res {A} (r : res A) : lift r = r.
Proof. by destruct r. Qed.

(** C4. The dictionary [fit_estimators] returns has a key exactly for the
    cases of which some dispatched result has a name that is not [None];
    under a key it holds the [(est_name, est)] pairs of that case's results
    with a name, in the order of the results, the others dropped; no key
    is mapped to the empty list.  It does return one when every result
    unpacks into three items and the case of a named result is hashable. *)
Theorem fit_estimators_groups
    (_fit_estimator : value → res value) (data : list value) (y : value)
    (estimator_cases : gmap value (list value)) (n_jobs : Z) (verbose : bool) :
  (∀ fitted,
     fit_estimators _fit_estimator data y estimator_cases n_jobs verbose
       = Ok fitted →
     ∃ out,
       _parallel_estimation _fit_estimator data estimator_cases (Some [y])
         n_jobs verbose = Ok out
       ∧ (∀ key, is_Some (fitted !! key)
                 ↔ ∃ r est_name est,
                     r ∈ out
                     ∧ iter_value r ≫= unpack3 = Ok (key, est_name, est)
                     ∧ est_name ≠ VNone)
       ∧ (∀ key, fitted !! key ≠ Some [])
       ∧ (∀ key l, fitted !! key = Some l → l = fitted_of key out))
  ∧ (∀ out,
       _parallel_estimation _fit_estimator data estimator_cases (Some [y])
         n_jobs verbose = Ok out →
       Forall fit_result out →
       is_Ok (fit_estimators _fit_estimator data y estimator_cases
                n_jobs verbose)).
Proof.
  unfold fit_estimators. split.
  - intros fitted (out & Hout & Hloop)%res_bind_Ok. rewrite lift_res in Hloop.
    exists out. split; [done|].
    assert (∀ key, fitted !! key
                   = if decide (fitted_of key out = []) then None
                     else Some (fitted_of key out)) as Hlookup.
    { intros key. by rewrite (fit_estimators_loop_lookup _ _ _ key Hloop),
        lookup_empty. }
    split_and!.
    + intros key. rewrite Hlookup. split.
      * case_decide as Hnil; [by intros [? ?]|]. intros _.
        destruct (fitted_of key out) as [|entry l] eqn:Hl; [done|].
        assert (entry ∈ fitted_of key out) as Hentry by (rewrite Hl; left).
        apply elem_of_fitted_of in Hentry
          as (r & name & est & ? & ? & ? & _).
        by exists r, name, est.
      * intros (r & name & est & Hin & Hr & Hname).
        assert (VTuple [name; est] ∈ fitted_of key out) as Hentry.
        { apply elem_of_fitted_of. by exists r, name, est. }
        case_decide as Hnil; [|done]. rewrite Hnil in Hentry.
        by apply not_elem_of_nil in Hentry.
    + intros key. rewrite Hlookup. case_decide; congruence.
    + intros key l. rewrite Hlookup. case_decide; congruence.
  - intros out -> Hout. simpl. rewrite lift_res.
    by apply fit_estimators_loop_total.
Qed.

(** The scenario of the specification: the estimator ["m2"] fails, case
    ["X"] keeps its ["m1"] and case ["Y"] only its ["m1"]. *)
Example fit_estimators_sample :
  fit_estimators sample_fit sample_data (VObj 9) sample_cases (-1) false
  = Ok (<[VStr "X" := [VTuple [VStr "m1"; VObj 101]]]>
          (<[VStr "Y" := [VTuple [VStr "m1"; VObj 101]]]> ∅)).
Proof. vm_compute. reflexivity. Qed.

(** ** The cross-validation orchestrator *)

Section cross_validation.
Implicit Types (n_jobs : Z) (verbose : bool).

Lemma gen_for_ext {A B} (l : list A) (body body' : A → gen B) :
  (∀ x, body x = body' x) → gen_for l body = gen_for l body'.
Proof. intros Hext. induction l as [|x l IH]; simpl; congruence. Qed.

Lemma run_serial_gen_for_length {A} (l : list A)
    (body : A → gen (res value)) (f : A → nat) :
  (∀ x, x ∈ l → ∃ rs, run_serial (body x) = Ok rs ∧ length rs = f x) →
  ∃ rs, run_serial (gen_for l body) = Ok rs
        ∧ length rs = sum_list (f <$> l).
Proof.
  induction l as [|x l IH]; intros Hbody; simpl.
  - by exists [].
  - destruct (Hbody x) as (rs & Hrs & Hlen); [by left|].
    destruct IH as (rs' & Hrs' & Hlen').
    { intros x' Hx'. apply Hbody. by right. }
    exists (rs ++ rs'). rewrite run_serial_gen_seq, Hrs; simpl.
    rewrite Hrs'; simpl. by rewrite length_app, Hlen, Hlen'.
Qed.

Lemma sum_list_const {A} (l : list A) (k : nat) :
  sum_list ((λ _, k) <$> l) = length l * k.
Proof. induction l as [|x l IH]; csimpl; [done|]. by rewrite IH. Qed.

Lemma mapM_res_length {A B} (f : A → res B) (l : list A) (k : list B) :
  mapM f l = Ok k → length k = length l.
Proof. intros H%mapM_res_Ok. by apply Forall2_length in H. Qed.
End cross_validation.

(** C2 as the code has it.  With [n_jobs] other than 0, when [param_sets]
    has an entry for the name of every estimator and the scoring job
    returns, [cross_validate] returns
    [len(dout) * sum(len(param_sets[name]) for name in estimators)]
    results: one for each fold, estimator and parameter set of that
    estimator. *)
Theorem cross_validate_count
    (_fit_score : value * value * value * value * value * value * value
                  → res value)
    (estimators : list (value * value))
    (param_sets : gmap value (list value)) (dout : list value)
    (scoring error_score : value) (n_jobs : Z) (verbose : bool) :
  n_jobs ≠ 0%Z →
  Forall (λ item, dict_contains param_sets item.1 = Ok true) estimators →
  (∀ args, is_Ok (_fit_score args)) →
  ∃ out,
    cross_validate _fit_score estimators param_sets dout scoring error_score
      n_jobs verbose = Ok out
    ∧ length out = length dout * param_count param_sets estimators.
Proof.
  intros Hn Hsets Htotal. unfold cross_validate.
  rewrite Parallel_serial by done.
  destruct (run_serial_gen_for_length dout
    (λ tup, gen_for estimators (λ '(est_name, est),
       gen_for_in
         (imap (λ (i : nat) (params : value), (VInt (Z.of_nat i), params))
            <$> dict_getitem param_sets est_name)
         (λ '(i, params),
            gen_yield
              (delayed _fit_score
                 (est, est_name, params, scoring, tup, i, error_score)))))
    (λ _, param_count param_sets estimators)) as (out & Hout & Hlen).
  - intros tup _. apply run_serial_gen_for_length.
    intros [est_name est] Hitem. rewrite Forall_forall in Hsets.
    specialize (Hsets _ Hitem); simpl in *.
    unfold params_of, dict_contains, dict_getitem in *.
    destruct (hashable est_name); [|done]. injection Hsets as Hsets.
    apply bool_decide_eq_true in Hsets as [params ->]. simpl.
    rewrite (gen_for_ext _ _ (λ x, gen_yield
      (_fit_score (est, est_name, x.2, scoring, tup, x.1, error_score))))
      by (by intros []).
    rewrite (run_serial_gen_for_yield
      (λ x, _fit_score (est, est_name, x.2, scoring, tup, x.1, error_score))).
    destruct (proj2 (mapM_res_is_Ok
      (λ x, _fit_score (est, est_name, x.2, scoring, tup, x.1, error_score))
      (imap (λ (i : nat) (params : value), (VInt (Z.of_nat i), params))
         params))) as [rs Hrs].
    { apply Forall_forall. auto. }
    exists rs. split; [done|].
    by rewrite (mapM_res_length _ _ _ Hrs), length_imap.
  - exists out. rewrite Hout; simpl. split; [done|].
    by rewrite Hlen, sum_list_const.
Qed.

Lemma cross_validate_count_witness :
  ∃ out,
    cross_validate sample_score sample_estimators sample_param_sets
      [VObj 30; VObj 31] VNone (VInt (-99)) (-1) false = Ok out
    ∧ length out = length [VObj 30; VObj 31]
                   * param_count sample_param_sets sample_estimators.
Proof.
  apply (cross_validate_count sample_score sample_estimators
           sample_param_sets [VObj 30; VObj 31] VNone (VInt (-99)) (-1) false).
  - discriminate.
  - repeat constructor.
  - intros [[[[[[est est_name] params] scoring] tup] i] error_score].
    eexists. reflexivity.
Defined.

(** C2 as the specification words it fails: with one fold and two
    estimators of one parameter set each, [param_sets] has an entry for
    both names and [cross_validate] returns two results, not
    [1 * 2 * (1 + 1)]. *)
Lemma cross_validate_count_counterexample :
  Forall (λ item, dict_contains sample_param_sets item.1 = Ok true)
    sample_estimators
  ∧ ∃ out,
      cross_validate sample_score sample_estimators sample_param_sets
        [VObj 30] VNone (VInt (-99)) (-1) false = Ok out
      ∧ length out = 2
      ∧ length out ≠ length [VObj 30] * length sample_estimators
                     * param_count sample_param_sets sample_estimators.
Proof.
  split; [repeat constructor|].
  eexists. split; [reflexivity|]. split; [reflexivity|].
  vm_compute. discriminate.
Qed.

(** ** Runs that may differ *)

Section determinism.
Implicit Types (n_jobs : Z) (verbose : bool).

Lemma deterministic_ret {A} (a : A) : deterministic (mret a).
Proof. intros r1 r2 H1 H2. unfold mret, outcomes_ret in *. congruence. Qed.

Lemma deterministic_throw {A} (e : exn) : deterministic (mthrow (A := A) e).
Proof. intros r1 r2 H1 H2. unfold mthrow, outcomes_throw in *. congruence. Qed.

Lemma deterministic_lift {A} (r : res A) : deterministic (lift r).
Proof.
  destruct r; [apply deterministic_ret|apply deterministic_throw].
Qed.

Lemma deterministic_bind {A B} (m : outcomes A) (f : A → outcomes B) :
  deterministic m → (∀ a, deterministic (f a)) → deterministic (m ≫= f).
Proof.
  intros Hm Hf r1 r2 [(a1 & Ha1 & H1)|(e1 & He1 & ->)]
    [(a2 & Ha2 & H2)|(e2 & He2 & ->)].
  - pose proof (Hm _ _ Ha1 Ha2) as [= ->]. by eapply Hf.
  - by pose proof (Hm _ _ Ha1 He2).
  - by pose proof (Hm _ _ He1 Ha2).
  - by pose proof (Hm _ _ He1 He2) as [= ->].
Qed.

Lemma gen_Forall_seq {A} (P : A → Prop) (g1 g2 : gen A) :
  gen_Forall P g1 → gen_Forall P g2 → gen_Forall P (gen_seq g1 g2).
Proof.
  induction g1 as [|a g1 IH|e]; simpl; [done| |done].
  intros [Ha Hg1] Hg2. split; [done|]. by apply IH.
Qed.

Lemma gen_Forall_for {A B} (P : B → Prop) (l : list A) (body : A → gen B) :
  (∀ x, gen_Forall P (body x)) → gen_Forall P (gen_for l body).
Proof.
  intros Hbody. induction l as [|x l IH]; simpl; [done|].
  by apply gen_Forall_seq.
Qed.

Lemma gen_Forall_for_in {A B} (P : B → Prop) (r : res (list A))
    (body : A → gen B) :
  (∀ x, gen_Forall P (body x)) → gen_Forall P (gen_for_in r body).
Proof. destruct r; simpl; [apply gen_Forall_for|done]. Qed.

(** Run one after the other, the tasks leave no choice but their own. *)
Lemma deterministic_run_serial (tasks : gen (outcomes value)) :
  gen_Forall deterministic tasks → deterministic (run_serial tasks).
Proof.
  induction tasks as [|task tasks IH|e]; simpl.
  - intros _. apply deterministic_ret.
  - intros [Htask Htasks]. apply deterministic_bind; [done|]. intros r.
    apply deterministic_bind; [by apply IH|]. intros rs.
    apply deterministic_ret.
  - intros _. apply deterministic_throw.
Qed.

Lemma deterministic_Parallel verbose (tasks : gen (outcomes value)) :
  gen_Forall deterministic tasks →
  deterministic (Parallel 1 verbose tasks).
Proof. apply deterministic_run_serial. Qed.

(** On workers, any task that can raise can be the one that is heard. *)
Lemma Parallel_race n_jobs verbose (tasks : gen (outcomes value)) task e :
  n_jobs ≠ 0%Z → n_jobs ≠ 1%Z →
  task ∈ gen_tasks tasks → task (Err e) →
  Parallel n_jobs verbose tasks (Err e).
Proof.
  intros H0 H1 Hin Htask. unfold Parallel, outcomes_engine.
  rewrite !decide_False by done. right. exists e. split; [done|].
  right. by exists task.
Qed.

Lemma outcomes_bind_raise {A B} (m : outcomes A) (f : A → outcomes B) e :
  m (Err e) → (m ≫= f) (Err e).
Proof. intros Hm. right. by exists e. Qed.

Lemma deterministic_dispatch (function : value → outcomes value) data
    estimator_cases optional_args verbose :
  (∀ arg, deterministic (function arg)) →
  deterministic (_parallel_estimation function data estimator_cases
                   optional_args 1 verbose).
Proof.
  intros Hf. apply deterministic_Parallel, gen_Forall_for. intros tup.
  apply gen_Forall_for_in. intros est. split; [apply Hf|done].
Qed.
End determinism.

(** C8. With the jobs run one after the other ([n_jobs = 1]) and
    collaborators that answer a call the same way each time, every run of
    [base_predict], of [fit_estimators] and of [cross_validate] on the same
    inputs ends the same way: with the same value, or the same exception. *)
Theorem orchestrators_deterministic
    (_fit_score : value * value * value * value * value * value * value
                  → outcomes value)
    (_fit_predict_base _predict_base _predict _fit_estimator
       : value → outcomes value)
    (_construct_matrix : list value → value → list value → bool
                         → outcomes value)
    (DataFrame : value → list value → outcomes value) :
  (∀ args, deterministic (_fit_score args)) →
  (∀ arg, deterministic (_fit_predict_base arg)) →
  (∀ arg, deterministic (_predict_base arg)) →
  (∀ arg, deterministic (_predict arg)) →
  (∀ arg, deterministic (_fit_estimator arg)) →
  (∀ out n fitted folded, deterministic (_construct_matrix out n fitted folded)) →
  (∀ M_ columns, deterministic (DataFrame M_ columns)) →
  (∀ data estimator_cases n folded_preds fit columns as_df verbose r1 r2,
     base_predict _fit_predict_base _predict_base _predict _construct_matrix
       DataFrame data estimator_cases n folded_preds fit columns as_df
       1 verbose r1 →
     base_predict _fit_predict_base _predict_base _predict _construct_matrix
       DataFrame data estimator_cases n folded_preds fit columns as_df
       1 verbose r2 →
     r1 = r2)
  ∧ (∀ data y estimator_cases verbose r1 r2,
       fit_estimators _fit_estimator data y estimator_cases 1 verbose r1 →
       fit_estimators _fit_estimator data y estimator_cases 1 verbose r2 →
       r1 = r2)
  ∧ (∀ estimators param_sets dout scoring error_score verbose r1 r2,
       cross_validate _fit_score estimators param_sets dout scoring
         error_score 1 verbose r1 →
       cross_validate _fit_score estimators param_sets dout scoring
         error_score 1 verbose r2 →
       r1 = r2).
Proof.
  intros Hscore Hfpb Hpb Hp Hfe Hcm Hdf. split_and!.
  - intros data estimator_cases n folded_preds fit columns as_df verbose.
    apply deterministic_bind.
    { apply deterministic_dispatch. by destruct folded_preds, fit. }
    intros out. apply deterministic_bind; [apply deterministic_lift|].
    intros fitted. apply deterministic_bind; [apply Hcm|].
    intros M0. apply deterministic_bind.
    { destruct as_df; [apply Hdf|apply deterministic_ret]. }
    intros M1. apply deterministic_ret.
  - intros data y estimator_cases verbose.
    apply deterministic_bind; [by apply deterministic_dispatch|].
    intros out. apply deterministic_lift.
  - intros estimators param_sets dout scoring error_score verbose.
    apply deterministic_bind; [|intros out; apply deterministic_ret].
    apply deterministic_Parallel, gen_Forall_for. intros tup.
    apply gen_Forall_for. intros [est_name est].
    apply gen_Forall_for_in. intros [i params]. split; [apply Hscore|done].
Qed.

Lemma orchestrators_deterministic_witness :
  deterministic
    (base_predict (as_outcomes sample_predict) (as_outcomes sample_predict)
       (as_outcomes sample_predict)
       (λ out n fitted folded, lift (sample_matrix out n fitted folded))
       (λ M_ columns, lift (sample_frame M_ columns))
       sample_data sample_cases (VInt 4) true true [VStr "m1"; VStr "m2"]
       false 1 false)
  ∧ deterministic
      (fit_estimators (as_outcomes sample_fit) sample_data (VObj 9)
         sample_cases 1 false)
  ∧ deterministic
      (cross_validate (as_outcomes sample_score) sample_estimators
         sample_param_sets [VObj 30; VObj 31] VNone (VInt (-99)) 1 false).
Proof.
  destruct (orchestrators_deterministic
              (as_outcomes sample_score) (as_outcomes sample_predict)
              (as_outcomes sample_predict) (as_outcomes sample_predict)
              (as_outcomes sample_fit)
              (λ out n fitted folded, lift (sample_matrix out n fitted folded))
              (λ M_ columns, lift (sample_frame M_ columns)))
    as (Hpredict & Hfit & Hscore).
  - intros args. apply deterministic_lift.
  - intros arg. apply deterministic_lift.
  - intros arg. apply deterministic_lift.
  - intros arg. apply deterministic_lift.
  - intros arg. apply deterministic_lift.
  - intros out n fitted folded. apply deterministic_lift.
  - intros M_ columns. apply deterministic_lift.
  - split; [exact (Hpredict _ _ _ _ _ _ _ _)|].
    split; [exact (Hfit _ _ _ _)|exact (Hscore _ _ _ _ _ _)].
Defined.

(** With [n_jobs] other than 0 and 1 the same call can end in two ways
    though every job answers the same way each time: two jobs raise, and
    either exception can be the one raised.  With [n_jobs = 1] it is that of
    the first job. *)
Example parallel_runs_differ :
  let job := as_outcomes
    (λ arg, match arg with
            | VTuple [_; _; VTuple [VStr "m1"; _]] => Err (Raised "m1")
            | _ => Err (Raised "m2")
            end) in
  fit_estimators job [VTuple [VObj 11; VStr "Y"]] (VObj 9) sample_cases
    (-1) false (Err (Raised "m1"))
  ∧ fit_estimators job [VTuple [VObj 11; VStr "Y"]] (VObj 9) sample_cases
      (-1) false (Err (Raised "m2"))
  ∧ ¬ deterministic
        (fit_estimators job [VTuple [VObj 11; VStr "Y"]] (VObj 9)
           sample_cases (-1) false).
Proof.
  intros job.
  assert (∀ name,
    name = "m1"%string ∨ name = "m2"%string →
    fit_estimators job [VTuple [VObj 11; VStr "Y"]] (VObj 9) sample_cases
      (-1) false (Err (Raised name))) as Hruns.
  { intros name Hname. unfold fit_estimators. apply outcomes_bind_raise.
    eapply (Parallel_race _ _ _ (λ r, r = Err (Raised name)));
      [done|done| |done].
    destruct Hname as [->| ->]; [left|right; left]. }
  split_and!; [apply Hruns; by left|apply Hruns; by right|].
  intros Hdet.
  by pose proof (Hdet _ _ (Hruns "m1"%string (or_introl eq_refl))
                   (Hruns "m2"%string (or_intror eq_refl))).
Qed.

(** ** Runs on functions *)

Section agreement.
Implicit Types (n_jobs : Z) (verbose : bool).

Lemma exactly_lift {A} (r : res A) : exactly (lift r) r.
Proof. by destruct r. Qed.

Lemma exactly_bind {A B} (m : outcomes A) (f : A → outcomes B)
    (r : res A) (f' : A → res B) :
  exactly m r → (∀ a, exactly (f a) (f' a)) → exactly (m ≫= f) (r ≫= f').
Proof.
  intros Hm Hf r'. split.
  - intros [(a & Ha & H)|(e & He & ->)].
    + apply Hm in Ha as <-. by apply Hf.
    + by apply Hm in He as <-.
  - intros ->. destruct r as [a|e]; simpl.
    + left. exists a. split; [by apply Hm|by apply Hf].
    + right. exists e. split; [by apply Hm|done].
Qed.

(** A run of a sequence: the run of its first part, then one of what
    follows. *)
Lemma possible_bind {A B} (m : outcomes A) (f : A → outcomes B)
    (r : res A) (f' : A → res B) :
  m r → (∀ a, f a (f' a)) → (m ≫= f) (r ≫= f').
Proof.
  intros Hm Hf. destruct r as [a|e]; simpl.
  - left. by exists a.
  - right. by exists e.
Qed.

Lemma gen_agree_seq g1 g1' g2 g2' :
  gen_agree g1 g1' → gen_agree g2 g2' →
  gen_agree (gen_seq g1 g2) (gen_seq g1' g2').
Proof.
  revert g1'. induction g1 as [|task g1 IH|e]; intros [|task' g1'|e'];
    simpl; try done.
  intros [? ?] ?. split; [done|]. by apply IH.
Qed.

Lemma gen_agree_for {A} (l : list A) body body' :
  (∀ x, gen_agree (body x) (body' x)) →
  gen_agree (gen_for l body) (gen_for l body').
Proof.
  intros Hbody. induction l as [|x l IH]; simpl; [done|].
  by apply gen_agree_seq.
Qed.

Lemma gen_agree_for_in {A} (r : res (list A)) body body' :
  (∀ x, gen_agree (body x) (body' x)) →
  gen_agree (gen_for_in r body) (gen_for_in r body').
Proof. destruct r; simpl; [apply gen_agree_for|done]. Qed.

Lemma exactly_run_serial g g' :
  gen_agree g g' → exactly (run_serial g) (run_serial g').
Proof.
  revert g'. induction g as [|task g IH|e]; intros [|task' g'|e'];
    simpl; try done.
  - intros [Htask Hg]. apply exactly_bind; [done|]. intros r.
    apply exactly_bind; [by apply IH|]. done.
  - by intros ->.
Qed.

(** What the serial run of functions gives is among what workers can
    give. *)
Lemma run_serial_among_workers g g' :
  gen_agree g g' →
  match run_serial g' with
  | Ok rs =>
      gen_raises g = None
      ∧ Forall2 (λ (task : outcomes value) x, task (Ok x)) (gen_tasks g) rs
  | Err e =>
      gen_raises g = Some e
      ∨ ∃ task : outcomes value, task ∈ gen_tasks g ∧ task (Err e)
  end.
Proof.
  revert g'. induction g as [|task g IH|e]; intros [|task' g'|e'];
    simpl; try done.
  - intros [Htask Hg]. specialize (IH _ Hg).
    destruct task' as [x|e']; simpl.
    + destruct (run_serial g') as [rs|e']; simpl.
      * destruct IH as [? ?]. split; [done|].
        constructor; [by apply Htask|done].
      * destruct IH as [?|(task0 & ? & ?)]; [by left|].
        right. exists task0. split; [by right|done].
    + right. exists task. split; [by left|by apply Htask].
  - intros ->. by left.
Qed.

(** The engine on functions takes one of the runs of the engine. *)
Lemma Parallel_possible n_jobs verbose g g' :
  gen_agree g g' →
  Parallel n_jobs verbose g (Parallel n_jobs verbose g').
Proof.
  intros Hg. unfold Parallel, outcomes_engine, res_engine.
  destruct (decide (n_jobs = 0%Z)); [done|].
  destruct (decide (n_jobs = 1%Z)).
  { by apply (exactly_run_serial g g' Hg). }
  pose proof (run_serial_among_workers _ _ Hg) as H.
  destruct (run_serial g') as [rs|e].
  - left. exists rs. by destruct H.
  - right. by exists e.
Qed.

(** With collaborators that are functions, what the orchestrators give on
    functions is one of their runs, whatever [n_jobs]. *)
Lemma possible_base_predict
    (_fit_predict_base _predict_base _predict : value → res value)
    (_construct_matrix : list value → value → list value → bool → res value)
    (DataFrame : value → list value → res value)
    data estimator_cases n folded_preds fit columns as_df n_jobs verbose :
  base_predict (as_outcomes _fit_predict_base)
    (as_outcomes _predict_base) (as_outcomes _predict)
    (λ out n fitted folded, lift (_construct_matrix out n fitted folded))
    (λ M_ columns, lift (DataFrame M_ columns))
    data estimator_cases n folded_preds fit columns as_df n_jobs verbose
    (base_predict _fit_predict_base _predict_base _predict
       _construct_matrix DataFrame data estimator_cases n folded_preds fit
       columns as_df n_jobs verbose).
Proof.
  unfold base_predict. apply possible_bind.
  { destruct folded_preds, fit; apply Parallel_possible, gen_agree_for;
      intros tup; apply gen_agree_for_in; intros est;
      (split; [apply exactly_lift|done]). }
  intros out. rewrite lift_res.
  apply possible_bind; [by apply exactly_lift|]. intros fitted.
  apply possible_bind; [by apply exactly_lift|]. intros M0.
  apply possible_bind; [|done].
  destruct as_df; [by apply exactly_lift|done].
Qed.

Lemma possible_fit_estimators (_fit_estimator : value → res value)
    data y estimator_cases n_jobs verbose :
  fit_estimators (as_outcomes _fit_estimator) data y estimator_cases
    n_jobs verbose
    (fit_estimators _fit_estimator data y estimator_cases n_jobs verbose).
Proof.
  unfold fit_estimators. apply possible_bind.
  { apply Parallel_possible, gen_agree_for. intros tup.
    apply gen_agree_for_in. intros est. split; [apply exactly_lift|done]. }
  intros out. rewrite lift_res. by apply exactly_lift.
Qed.

Lemma possible_cross_validate
    (_fit_score : value * value * value * value * value * value * value
                  → res value)
    estimators param_sets dout scoring error_score n_jobs verbose :
  cross_validate (as_outcomes _fit_score) estimators param_sets dout
    scoring error_score n_jobs verbose
    (cross_validate _fit_score estimators param_sets dout scoring
       error_score n_jobs verbose).
Proof.
  unfold cross_validate. apply possible_bind; [|done].
  apply Parallel_possible, gen_agree_for. intros tup.
  apply gen_agree_for. intros [est_name est].
  apply gen_agree_for_in. intros [i params].
  split; [apply exactly_lift|done].
Qed.
End agreement.

(** ** Further properties of the column filter *)

Section pre_check_shapes.
Implicit Types (out columns : list value) (cols : list (list value)).

Lemma zip_width_bounds cols :
  cols ≠ [] →
  Forall (λ c, zip_width cols ≤ length c) cols
  ∧ Exists (λ c, length c = zip_width cols) cols.
Proof.
  induction cols as [|c cs IH]; [done|]. intros _.
  destruct cs as [|c' cs].
  - split; [by constructor|by left].
  - destruct IH as [Hall Hsome]; [done|].
    rewrite (zip_width_cons c (c' :: cs)) by done.
    set (w := zip_width (c' :: cs)) in *. split.
    + constructor; [lia|]. eapply Forall_impl; [exact Hall|]. simpl. lia.
    + destruct (decide (length c ≤ w)).
      * left. lia.
      * right. eapply Exists_impl; [exact Hsome|]. simpl. lia.
Qed.

Lemma zip_width_unique k cols :
  Forall (λ c, k ≤ length c) cols →
  Exists (λ c, length c = k) cols →
  zip_width cols = k.
Proof.
  intros Hall Hsome.
  assert (cols ≠ []) as Hne by (intros ->; by apply Exists_nil in Hsome).
  destruct (zip_width_bounds cols Hne) as [Hall' Hsome'].
  apply Exists_exists in Hsome as (c & Hc & Hk).
  apply Exists_exists in Hsome' as (c' & Hc' & Hw).
  rewrite Forall_forall in Hall, Hall'.
  specialize (Hall _ Hc'). specialize (Hall' _ Hc). lia.
Qed.

Lemma cols_arity_at_least k out cols :
  mapM iter_value out = Ok cols →
  Forall (arity_at_least k) out ↔ Forall (λ c, k ≤ length c) cols.
Proof.
  intros H%mapM_res_Ok. induction H as [|r c out cols Hr _ IH].
  - by split; constructor.
  - rewrite !Forall_cons, IH. unfold arity_at_least. rewrite Hr. split.
    + intros [(items & [= <-] & ?) ?]. done.
    + intros [? ?]. split; [by exists c|done].
Qed.

Lemma cols_has_arity k out cols :
  mapM iter_value out = Ok cols →
  Exists (has_arity k) out ↔ Exists (λ c, length c = k) cols.
Proof.
  intros H%mapM_res_Ok. induction H as [|r c out cols Hr _ IH].
  - split; by intros ?%Exists_nil.
  - rewrite !Exists_cons, IH. unfold has_arity. rewrite Hr. split.
    + intros [(items & [= <-] & ?)|?]; [by left|by right].
    + intros [?|?]; [left; by exists c|by right].
Qed.

Lemma mapM_iter_value_Ok out :
  is_Ok (mapM iter_value out) ↔ Forall iterable out.
Proof. apply mapM_res_is_Ok. Qed.

(** The shortest result decides: it has [k] items and the others at least
    as many. *)
Lemma shortest_arity out cols k :
  mapM iter_value out = Ok cols →
  out ≠ [] →
  zip_width cols = k
  ↔ Forall (arity_at_least k) out ∧ Exists (has_arity k) out.
Proof.
  intros Hcols Hne.
  rewrite (cols_arity_at_least _ _ _ Hcols), (cols_has_arity _ _ _ Hcols).
  assert (cols ≠ []) as Hne'.
  { intros ->. apply mapM_res_length in Hcols. by destruct out. }
  split.
  - intros <-. by apply zip_width_bounds.
  - intros [? ?]. by apply zip_width_unique.
Qed.
End pre_check_shapes.

Lemma pre_check_Ok_iff (out columns names : list value) :
  _pre_check_estimators out columns = Ok names
  ↔ ∃ k, (k = 2 ∨ k = 3)
         ∧ Forall (arity_at_least k) out
         ∧ Exists (has_arity k) out
         ∧ names = filter (λ ce, ce ∈ first_items out) columns.
Proof.
  rewrite pre_check_spec. split.
  - intros (cols & Hcols & H)%res_bind_Ok.
    case_decide as Hw; [|done]. injection H as <-.
    assert (out ≠ []) as Hne.
    { intros ->. injection Hcols as <-. simpl in Hw. lia. }
    exists (zip_width cols). split; [lia|].
    destruct (proj1 (shortest_arity _ _ _ Hcols Hne) eq_refl). done.
  - intros (k & Hk & Hall & Hsome & ->).
    assert (out ≠ []) as Hne by (intros ->; by apply Exists_nil in Hsome).
    destruct (proj2 (mapM_iter_value_Ok out)) as [cols Hcols].
    { eapply Forall_impl; [exact Hall|]. intros r (items & Hr & _).
      by exists items. }
    rewrite Hcols; simpl.
    rewrite (proj2 (shortest_arity _ _ _ Hcols Hne) (conj Hall Hsome)).
    by rewrite decide_True by lia.
Qed.

(** X1. [_pre_check_estimators] returns exactly when every result can be
    iterated and the shortest one has two or three items, the others being
    no shorter; it then returns [case_est_base_columns] filtered by the
    first items of the results.  Results of two and of three items may be
    mixed. *)
Theorem pre_check_returns_iff (out columns names : list value) :
  _pre_check_estimators out columns = Ok names
  ↔ ∃ k, (k = 2 ∨ k = 3)
         ∧ Forall (arity_at_least k) out
         ∧ Exists (has_arity k) out
         ∧ names = filter (λ ce, ce ∈ first_items out) columns.
Proof. apply pre_check_Ok_iff. Qed.

(** X2. [_pre_check_estimators] raises nothing but [TypeError] and
    [ValueError]: [TypeError], which its [except] clause lets through, exactly
    when some result cannot be iterated; [ValueError] exactly when all can
    and there is no result at all or the shortest one has neither two nor
    three items. *)
Theorem pre_check_raises (out columns : list value) :
  (∀ e, _pre_check_estimators out columns = Err e →
        e = TypeError ∨ e = ValueError)
  ∧ (_pre_check_estimators out columns = Err TypeError
     ↔ Exists (λ r, ¬ iterable r) out)
  ∧ (_pre_check_estimators out columns = Err ValueError
     ↔ Forall iterable out
       ∧ (out = [] ∨ ∃ k, k ≠ 2 ∧ k ≠ 3 ∧ Forall (arity_at_least k) out
                          ∧ Exists (has_arity k) out)).
Proof.
  rewrite pre_check_spec.
  destruct (mapM iter_value out) as [cols|e] eqn:Hcols; simpl.
  - assert (Forall iterable out) as Hiter.
    { apply mapM_iter_value_Ok. by exists cols. }
    split_and!.
    + intros e. case_decide; [done|]. intros [= <-]. by right.
    + split; [by case_decide|].
      intros (r & Hr & Hnot)%Exists_exists. rewrite Forall_forall in Hiter.
      destruct Hnot. by apply Hiter.
    + split.
      * case_decide as Hw; [done|]. intros _. split; [done|].
        destruct out as [|r out]; [by left|]. right.
        exists (zip_width cols). split_and!; [lia|lia|..];
          by destruct (proj1 (shortest_arity _ _ _ Hcols
                                (ltac:(done) : r :: out ≠ [])) eq_refl).
      * intros [_ [->|(k & Hk2 & Hk3 & Hall & Hsome)]].
        { injection Hcols as <-. done. }
        assert (out ≠ []) as Hne by (intros ->; by apply Exists_nil in Hsome).
        rewrite (proj2 (shortest_arity _ _ _ Hcols Hne) (conj Hall Hsome)).
        by rewrite decide_False by lia.
  - pose proof (mapM_iter_value_Err _ _ Hcols) as ->.
    assert (¬ Forall iterable out) as Hnot.
    { intros [cols H]%mapM_iter_value_Ok. congruence. }
    split_and!.
    + intros e [= <-]. by left.
    + split; [|done]. intros _. by apply (not_Forall_Exists iterable).
    + split; [done|]. by intros [? _].
Qed.

Lemma pre_check_two_or_three (out columns : list value) :
  out ≠ [] →
  Forall (λ r, has_arity 2 r ∨ has_arity 3 r) out →
  _pre_check_estimators out columns
  = Ok (filter (λ ce, ce ∈ first_items out) columns).
Proof.
  intros Hne Hall. apply pre_check_Ok_iff.
  destruct (decide (Exists (λ r, ¬ arity_at_least 3 r) out)) as [Hshort|Hlong].
  - exists 2. split_and!; [by left| | |done].
    + eapply Forall_impl; [exact Hall|].
      intros r [(items & ? & ?)|(items & ? & ?)]; exists items; split; (done || lia).
    + apply Exists_exists in Hshort as (r & Hr & Hnot). apply Exists_exists.
      exists r. split; [done|]. rewrite Forall_forall in Hall.
      destruct (Hall _ Hr) as [?|(items & ? & ?)]; [done|].
      destruct Hnot. exists items. split; (done || lia).
  - exists 3. split_and!; [by right| | |done].
    + apply Forall_forall. intros r Hr.
      destruct (decide (arity_at_least 3 r)) as [?|Hnot]; [done|].
      destruct Hlong. apply Exists_exists. by exists r.
    + destruct out as [|r out]; [done|]. left.
      apply Forall_cons in Hall as [[(items & Hr & Hlen)|?] _]; [|done].
      destruct Hlong. left. intros (items' & Hr' & Hlen'). rewrite Hr in Hr'.
      injection Hr' as <-. lia.
Qed.

(** X3. Results of two and of three items may be mixed: on a non-empty
    result list in which every result has two or three items,
    [_pre_check_estimators] returns the filtered columns. *)
Theorem pre_check_mixed_arity (out columns : list value) :
  out ≠ [] →
  Forall (λ r, has_arity 2 r ∨ has_arity 3 r) out →
  _pre_check_estimators out columns
  = Ok (filter (λ ce, ce ∈ first_items out) columns).
Proof. apply pre_check_two_or_three. Qed.

Lemma pre_check_mixed_arity_witness :
  _pre_check_estimators
    [VTuple [VStr "svm"; VObj 0; VObj 1]; VTuple [VStr "rf"; VObj 0]]
    [VStr "rf"; VStr "svm"; VStr "knn"]
  = Ok (filter
          (λ ce, ce ∈ first_items
                   [VTuple [VStr "svm"; VObj 0; VObj 1];
                    VTuple [VStr "rf"; VObj 0]])
          [VStr "rf"; VStr "svm"; VStr "knn"]).
Proof.
  apply pre_check_mixed_arity.
  - discriminate.
  - apply Forall_cons. split.
    { right. eexists. split; reflexivity. }
    apply Forall_cons. split; [|apply Forall_nil; exact I].
    left. eexists. split; reflexivity.
Defined.

(** X4. The names [_pre_check_estimators] returns are the candidate columns
    that are the first item of some result: none is invented and none that
    a result carries is left out.  A name that several results carry, one
    per fold say, is kept as often as [case_est_base_columns] lists it: no
    column is doubled. *)
Theorem pre_check_names (out columns names : list value) :
  _pre_check_estimators out columns = Ok names →
  (∀ ce, ce ∈ names
         ↔ ce ∈ columns
           ∧ ∃ r items, r ∈ out ∧ iter_value r = Ok (ce :: items))
  ∧ (NoDup columns → NoDup names)
  ∧ length names ≤ length columns.
Proof.
  intros (k & _ & _ & _ & ->)%pre_check_Ok_iff. split_and!.
  - intros ce. rewrite list_elem_of_filter. unfold first_items.
    rewrite list_elem_of_omap. split.
    + intros [(r & Hr & Hce) Hcol]. split; [done|].
      destruct (iter_value r) as [[|name items]|] eqn:Hiter; try done.
      injection Hce as ->. by exists r, items.
    + intros [Hcol (r & items & Hr & Hiter)]. split; [|done].
      exists r. by rewrite Hiter.
  - apply NoDup_filter.
  - apply length_filter.
Qed.

Lemma pre_check_names_witness :
  (∀ ce, ce ∈ [VStr "rf"]
         ↔ ce ∈ [VStr "rf"; VStr "knn"]
           ∧ ∃ r items,
               r ∈ [VTuple [VStr "rf"; VObj 0]; VTuple [VStr "rf"; VObj 1]]
               ∧ iter_value r = Ok (ce :: items))
  ∧ (NoDup [VStr "rf"; VStr "knn"] → NoDup [VStr "rf"])
  ∧ length [VStr "rf"] ≤ length [VStr "rf"; VStr "knn"].
Proof.
  apply (pre_check_names
           [VTuple [VStr "rf"; VObj 0]; VTuple [VStr "rf"; VObj 1]]).
  reflexivity.
Defined.

(** X5. Filtering is idempotent: the names [_pre_check_estimators] returns
    pass the same results unchanged. *)
Theorem pre_check_idempotent (out columns names : list value) :
  _pre_check_estimators out columns = Ok names →
  _pre_check_estimators out names = Ok names.
Proof.
  intros (k & Hk & Hall & Hsome & ->)%pre_check_Ok_iff.
  apply pre_check_Ok_iff. exists k. split_and!; try done.
  symmetry. apply list_filter_filter_l. done.
Qed.

Lemma pre_check_idempotent_witness :
  _pre_check_estimators
    [VTuple [VStr "svm"; VObj 0]; VTuple [VStr "rf"; VObj 0]]
    [VStr "rf"; VStr "svm"]
  = Ok [VStr "rf"; VStr "svm"].
Proof.
  apply (pre_check_idempotent
           [VTuple [VStr "svm"; VObj 0]; VTuple [VStr "rf"; VObj 0]]
           [VStr "rf"; VStr "svm"; VStr "knn"]).
  reflexivity.
Defined.

(** ** The column order of the prediction orchestrator *)

(** C3. When the dispatch of [base_predict] returns a non-empty list of
    results of two or three items and the matrix, and with [as_df] the
    table, can be built, [base_predict] returns, with the matrix or the
    table labelled by it, the list [columns] filtered to the names that are
    the first item of some result: a sublist of [columns], in the order of
    [columns].  The order of the results has no part in it: the same
    results in any other order give the same list. *)
Theorem base_predict_column_order
    (_fit_predict_base _predict_base _predict : value → res value)
    (_construct_matrix : list value → value → list value → bool → res value)
    (DataFrame : value → list value → res value)
    (data : list value) (estimator_cases : gmap value (list value))
    (n : value) (folded_preds fit : bool) (columns : list value)
    (as_df : bool) (n_jobs : Z) (verbose : bool)
    (out : list value) (M0 M1 : value) :
  _parallel_estimation
    (selected_function _fit_predict_base _predict_base _predict
       folded_preds fit)
    data estimator_cases None n_jobs verbose = Ok out →
  out ≠ [] →
  Forall (λ r, has_arity 2 r ∨ has_arity 3 r) out →
  _construct_matrix out n (filter (λ ce, ce ∈ first_items out) columns)
    folded_preds = Ok M0 →
  (as_df = true →
   DataFrame M0 (filter (λ ce, ce ∈ first_items out) columns) = Ok M1) →
  base_predict _fit_predict_base _predict_base _predict _construct_matrix
    DataFrame data estimator_cases n folded_preds fit columns as_df
    n_jobs verbose
  = Ok (if as_df then M1 else M0,
        filter (λ ce, ce ∈ first_items out) columns)
  ∧ sublist (filter (λ ce, ce ∈ first_items out) columns) columns
  ∧ (∀ out', out ≡ₚ out' →
       _pre_check_estimators out' columns
       = Ok (filter (λ ce, ce ∈ first_items out) columns)).
Proof.
  intros Hout Hne Hshape HM0 HM1.
  pose proof (pre_check_two_or_three out columns Hne Hshape) as Hnames.
  split_and!.
  - rewrite base_predict_selected. apply predict_with_Ok.
    exists out, M0. split_and!; try done.
    destruct as_df; [by apply HM1|done].
  - apply sublist_filter.
  - intros out' Hperm. by rewrite <- (pre_check_Permutation _ _ _ Hperm).
Qed.

(** The example of the specification: of ["rf"], ["svm"] and ["knn"] only
    ["svm"] and ["rf"] come back, in that order; the columns are ["rf"]
    then ["svm"]. *)
Lemma base_predict_column_order_witness :
  base_predict sample_predict sample_predict sample_predict sample_matrix
    sample_frame [VTuple [VObj 10; VStr "c"]]
    (<[VStr "c" := [VTuple [VStr "svm"; VObj 1]; VTuple [VStr "rf"; VObj 2]]]> ∅)
    (VInt 4) true true [VStr "rf"; VStr "svm"; VStr "knn"] true (-1) false
  = Ok (if true
        then VTuple [VTuple [VInt 4; VList [VStr "rf"; VStr "svm"]];
                     VList [VStr "rf"; VStr "svm"]]
        else VTuple [VInt 4; VList [VStr "rf"; VStr "svm"]],
        filter (λ ce, ce ∈ first_items
                        [VTuple [VStr "svm"; VObj 0]; VTuple [VStr "rf"; VObj 0]])
          [VStr "rf"; VStr "svm"; VStr "knn"])
  ∧ sublist
      (filter (λ ce, ce ∈ first_items
                       [VTuple [VStr "svm"; VObj 0]; VTuple [VStr "rf"; VObj 0]])
         [VStr "rf"; VStr "svm"; VStr "knn"])
      [VStr "rf"; VStr "svm"; VStr "knn"]
  ∧ (∀ out',
       [VTuple [VStr "svm"; VObj 0]; VTuple [VStr "rf"; VObj 0]] ≡ₚ out' →
       _pre_check_estimators out' [VStr "rf"; VStr "svm"; VStr "knn"]
       = Ok (filter
               (λ ce, ce ∈ first_items
                        [VTuple [VStr "svm"; VObj 0];
                         VTuple [VStr "rf"; VObj 0]])
               [VStr "rf"; VStr "svm"; VStr "knn"])).
Proof.
  apply (base_predict_column_order sample_predict sample_predict
           sample_predict sample_matrix sample_frame
           [VTuple [VObj 10; VStr "c"]]
           (<[VStr "c" := [VTuple [VStr "svm"; VObj 1];
                           VTuple [VStr "rf"; VObj 2]]]> ∅)
           (VInt 4) true true [VStr "rf"; VStr "svm"; VStr "knn"] true (-1)
           false
           [VTuple [VStr "svm"; VObj 0]; VTuple [VStr "rf"; VObj 0]]
           (VTuple [VInt 4; VList [VStr "rf"; VStr "svm"]])
           (VTuple [VTuple [VInt 4; VList [VStr "rf"; VStr "svm"]];
                    VList [VStr "rf"; VStr "svm"]])).
  - reflexivity.
  - discriminate.
  - apply Forall_cons. split; [left; eexists; split; reflexivity|].
    apply Forall_cons. split; [left; eexists; split; reflexivity|].
    apply Forall_nil. exact I.
  - reflexivity.
  - intros _. reflexivity.
Defined.

Example base_predict_column_order_sample :
  base_predict sample_predict sample_predict sample_predict sample_matrix
    sample_frame [VTuple [VObj 10; VStr "c"]]
    (<[VStr "c" := [VTuple [VStr "svm"; VObj 1]; VTuple [VStr "rf"; VObj 2]]]> ∅)
    (VInt 4) true true [VStr "rf"; VStr "svm"; VStr "knn"] false (-1) false
  = Ok (VTuple [VInt 4; VList [VStr "rf"; VStr "svm"]], [VStr "rf"; VStr "svm"]).
Proof. reflexivity. Qed.

(** ** Further properties of the dispatch primitive *)

(** X6. With [n_jobs] other than 0, [_parallel_estimation] returns a result
    list exactly when the estimators of every data tuple can be looked up
    and every job returns: there is no partial result.  The list then holds
    the values of the jobs in their order. *)
Theorem parallel_estimation_returns_iff
    (function : value → res value) (data : list value)
    (estimator_cases : gmap value (list value))
    (optional_args : option (list value)) (n_jobs : Z) (verbose : bool)
    (out : list value) :
  n_jobs ≠ 0%Z →
  _parallel_estimation function data estimator_cases optional_args
    n_jobs verbose = Ok out
  ↔ Forall (λ tup, is_Ok (case_estimators estimator_cases tup)) data
    ∧ Forall2 (λ arg r, function arg = Ok r)
        (job_args (add_input_of optional_args) estimator_cases data) out.
Proof. apply dispatch_Ok. Qed.

Lemma parallel_estimation_returns_iff_witness :
  _parallel_estimation sample_fit sample_data sample_cases None (-1) false
    = Ok [VTuple [VStr "X"; VStr "m1"; VObj 101];
          VTuple [VStr "Y"; VStr "m1"; VObj 101];
          VTuple [VStr "Y"; VNone; VNone]]
  ↔ Forall (λ tup, is_Ok (case_estimators sample_cases tup)) sample_data
    ∧ Forall2 (λ arg r, sample_fit arg = Ok r)
        (job_args (add_input_of None) sample_cases sample_data)
        [VTuple [VStr "X"; VStr "m1"; VObj 101];
         VTuple [VStr "Y"; VStr "m1"; VObj 101];
         VTuple [VStr "Y"; VNone; VNone]].
Proof.
  apply parallel_estimation_returns_iff. discriminate.
Defined.

(** X7. With one job after the other ([n_jobs = 1]), dispatching a list of
    data tuples is dispatching its head part and then its tail part: the
    results are joined in that order, and when the head part raises the
    tail part is never reached. *)
Theorem parallel_estimation_app
    (function : value → res value) (data1 data2 : list value)
    (estimator_cases : gmap value (list value))
    (optional_args : option (list value)) (verbose : bool) :
  _parallel_estimation function (data1 ++ data2) estimator_cases
    optional_args 1 verbose
  = match _parallel_estimation function data1 estimator_cases optional_args
            1 verbose with
    | Err e => Err e
    | Ok rs1 =>
        match _parallel_estimation function data2 estimator_cases
                optional_args 1 verbose with
        | Err e => Err e
        | Ok rs2 => Ok (rs1 ++ rs2)
        end
    end.
Proof. rewrite dispatch_app. by repeat case_match. Qed.

(** X8. When the tuples before it are dispatched without error and the
    estimators of a tuple cannot be looked up, the dispatch raises the error
    of that lookup: [TypeError] for a tuple that is no sequence or a case
    key that cannot be hashed, [IndexError] for an empty tuple, [KeyError]
    for a case key the mapping lacks. *)
Theorem parallel_estimation_lookup_error
    (function : value → res value) (before after : list value) (tup : value)
    (estimator_cases : gmap value (list value))
    (optional_args : option (list value)) (n_jobs : Z) (verbose : bool)
    (e : exn) :
  is_Ok (_parallel_estimation function before estimator_cases optional_args
           n_jobs verbose) →
  case_estimators estimator_cases tup = Err e →
  _parallel_estimation function (before ++ tup :: after) estimator_cases
    optional_args n_jobs verbose = Err e
  ∧ ((e = TypeError
      ∧ (¬ iterable tup
         ∨ ∃ key, getitem_last tup = Ok key ∧ hashable key = false))
     ∨ (e = IndexError ∧ iter_value tup = Ok [])
     ∨ (e = KeyError
        ∧ ∃ key, getitem_last tup = Ok key ∧ hashable key = true
                 ∧ estimator_cases !! key = None)).
Proof.
  intros [rs Hrs] Hlookup. split.
  - pose proof (dispatch_Ok_nonzero _ _ _ _ _ _ _ Hrs) as Hn.
    rewrite dispatch_app, Hrs; simpl.
    by rewrite dispatch_cons, Hlookup by done.
  - unfold case_estimators, getitem_last, dict_getitem, iterable in *.
    destruct (iter_value tup) as [items|e'] eqn:Hiter; simpl in *.
    + destruct (last items) as [key|] eqn:Hlast; simpl in *.
      * destruct (hashable key) eqn:Hhash.
        -- destruct (estimator_cases !! key) eqn:Hkey; [done|].
           injection Hlookup as <-. right; right. split; [done|]. by exists key.
        -- injection Hlookup as <-. left. split; [done|]. right. by exists key.
      * injection Hlookup as <-. right; left. split; [done|].
        apply last_None in Hlast. by rewrite Hlast.
    + injection Hlookup as <-. pose proof (iter_value_Err _ _ Hiter) as ->.
      left. split; [done|]. left. by intros [? [=]].
Qed.

Lemma parallel_estimation_lookup_error_witness :
  _parallel_estimation sample_fit (sample_data ++ VTuple [] :: [VObj 3])
    sample_cases None (-1) false = Err IndexError
  ∧ ((IndexError = TypeError
      ∧ (¬ iterable (VTuple [])
         ∨ ∃ key, getitem_last (VTuple []) = Ok key ∧ hashable key = false))
     ∨ (IndexError = IndexError ∧ iter_value (VTuple []) = Ok [])
     ∨ (IndexError = KeyError
        ∧ ∃ key, getitem_last (VTuple []) = Ok key ∧ hashable key = true
                 ∧ sample_cases !! key = None)).
Proof.
  apply parallel_estimation_lookup_error.
  - eexists. reflexivity.
  - reflexivity.
Defined.

(** X9. With one job after the other ([n_jobs = 1]), a job that raises
    takes the batch with it: when the tuples before are dispatched without
    error and, among the estimators of a tuple, the jobs before return and
    the next one raises, the dispatch raises that exception, whatever comes
    after. *)
Theorem parallel_estimation_job_error
    (function : value → res value) (before after : list value) (tup : value)
    (ests_before ests_after : list value) (est : value)
    (estimator_cases : gmap value (list value))
    (optional_args : option (list value)) (verbose : bool)
    (e : exn) :
  is_Ok (_parallel_estimation function before estimator_cases optional_args
           1 verbose) →
  case_estimators estimator_cases tup = Ok (ests_before ++ est :: ests_after) →
  Forall (λ est', is_Ok (function
            (VTuple (add_input_of optional_args ++ [tup; est'])))) ests_before →
  function (VTuple (add_input_of optional_args ++ [tup; est])) = Err e →
  _parallel_estimation function (before ++ tup :: after) estimator_cases
    optional_args 1 verbose = Err e.
Proof.
  intros [rs Hrs] Hests Hbefore Hjob.
  rewrite dispatch_app, Hrs; simpl. rewrite dispatch_cons, Hests by done; simpl.
  assert (mapM (λ est', function
            (VTuple (add_input_of optional_args ++ [tup; est'])))
            (ests_before ++ est :: ests_after) = Err e) as ->; [|done].
  clear Hests. induction Hbefore as [|est' ests [r Hr] _ IH]; simpl.
  - by rewrite Hjob.
  - rewrite Hr; simpl. by rewrite IH.
Qed.

Lemma parallel_estimation_job_error_witness :
  _parallel_estimation
    (λ arg, match arg with
            | VTuple [_; VTuple [VStr "m2"; _]] => Err (Raised "fit")
            | _ => sample_fit arg
            end)
    ([VTuple [VObj 10; VStr "X"]] ++ VTuple [VObj 11; VStr "Y"] :: [VObj 3])
    sample_cases None 1 false = Err (Raised "fit").
Proof.
  apply (parallel_estimation_job_error _ _ _ _
           [VTuple [VStr "m1"; VObj 1]] [] (VTuple [VStr "m2"; VObj 2])).
  - eexists. reflexivity.
  - reflexivity.
  - repeat constructor. eexists. reflexivity.
  - reflexivity.
Defined.

(** X10. The dispatch reads the mapping at the case keys of the data
    tuples only: two mappings that agree there give the same results, so
    the cases no tuple belongs to schedule nothing. *)
Theorem parallel_estimation_relevant_cases
    (function : value → res value) (data : list value)
    (estimator_cases estimator_cases' : gmap value (list value))
    (optional_args : option (list value)) (n_jobs : Z) (verbose : bool) :
  (∀ tup key, tup ∈ data → getitem_last tup = Ok key →
              estimator_cases !! key = estimator_cases' !! key) →
  _parallel_estimation function data estimator_cases optional_args
    n_jobs verbose
  = _parallel_estimation function data estimator_cases' optional_args
      n_jobs verbose.
Proof.
  destruct (decide (n_jobs = 0%Z)) as [Hz|Hn].
  { intros _. by rewrite !dispatch_zero. }
  induction data as [|tup data IH]; intros Hagree.
  { by rewrite !dispatch_nil. }
  rewrite !dispatch_cons by done.
  assert (case_estimators estimator_cases tup
          = case_estimators estimator_cases' tup) as ->.
  { unfold case_estimators, dict_getitem.
    destruct (getitem_last tup) as [key|] eqn:Hkey; simpl; [|done].
    rewrite (Hagree tup key); [done|by left|done]. }
  rewrite IH; [done|]. intros tup' key Hin. apply Hagree. by right.
Qed.

Lemma parallel_estimation_relevant_cases_witness :
  _parallel_estimation sample_fit sample_data sample_cases None (-1) false
  = _parallel_estimation sample_fit sample_data
      (<[VStr "W" := [VTuple [VStr "m3"; VObj 3]]]> sample_cases)
      None (-1) false.
Proof.
  apply parallel_estimation_relevant_cases.
  intros tup key Hin Hkey.
  apply elem_of_cons in Hin as [->|Hin].
  { injection Hkey as <-. reflexivity. }
  apply elem_of_cons in Hin as [->|Hin].
  { injection Hkey as <-. reflexivity. }
  by apply not_elem_of_nil in Hin.
Defined.

(** ** Further properties of the fit orchestrator *)

Section fit_loop_more.
Implicit Types (out : list value) (fitted : gmap value (list value)).

Lemma fit_estimators_loop_Ok_iff out fitted :
  is_Ok (fit_estimators_loop out fitted) ↔ Forall fit_result out.
Proof.
  split; [|apply fit_estimators_loop_total].
  revert fitted. induction out as [|r out IH]; intros fitted [m Hloop];
    [constructor|].
  pose proof (fit_estimators_loop_Ok_inv _ _ _ _ Hloop)
    as (c & name & est & Hr & Hhash).
  constructor; [by exists c, name, est|].
  destruct (decide (name = VNone)) as [->|Hname].
  - rewrite (fit_estimators_loop_drop _ _ _ _ _ Hr) in Hloop.
    apply (IH fitted). by exists m.
  - rewrite (fit_estimators_loop_keep _ _ _ _ _ _ Hr Hname (Hhash Hname))
      in Hloop.
    eapply IH. by exists m.
Qed.

(** The dictionary is asked only for keys the loop has just made sure of:
    the loop raises no [KeyError]. *)
Lemma fit_estimators_loop_Err out fitted e :
  fit_estimators_loop out fitted = Err e → e = TypeError ∨ e = ValueError.
Proof.
  revert fitted. induction out as [|r out IH]; intros fitted; [done|]. simpl.
  destruct (iter_value r) as [items|e'] eqn:Hiter; simpl.
  2: { intros [= <-]. left. by eapply iter_value_Err. }
  destruct (unpack3 items) as [[[c name] est]|e'] eqn:Hitems; simpl.
  2: { intros [= <-]. right. unfold unpack3 in Hitems.
       repeat case_match; congruence. }
  case_decide as Hname; [|apply IH].
  unfold dict_contains, dict_getitem.
  destruct (hashable c); simpl; [|intros [= <-]; by left].
  destruct (fitted !! c) as [l|] eqn:Hl; simpl.
  - rewrite Hl; simpl. apply IH.
  - rewrite lookup_insert_eq; simpl. apply IH.
Qed.

Lemma fit_estimators_loop_app out1 out2 fitted :
  fit_estimators_loop (out1 ++ out2) fitted
  = fit_estimators_loop out1 fitted ≫= fit_estimators_loop out2.
Proof.
  revert fitted. induction out1 as [|r out1 IH]; intros fitted; [done|]. simpl.
  destruct (iter_value r) as [items|]; simpl; [|done].
  destruct (unpack3 items) as [[[c name] est]|]; simpl; [|done].
  case_decide; [|apply IH].
  destruct (dict_contains fitted c) as [present|]; simpl; [|done].
  destruct (dict_getitem _ c) as [l|]; simpl; [|done]. apply IH.
Qed.

Lemma entry_count_insert fitted c entry :
  entry_count (<[c := default [] (fitted !! c) ++ [entry]]> fitted)
  = S (entry_count fitted).
Proof.
  unfold entry_count. destruct (fitted !! c) as [l|] eqn:Hl; simpl.
  - rewrite <- insert_delete_eq.
    rewrite map_fold_insert_L; [|intros; lia|apply lookup_delete_eq].
    rewrite (map_fold_delete_L _ _ c l fitted); [|intros; lia|done].
    rewrite length_app. simpl. lia.
  - rewrite map_fold_insert_L; [done|intros; lia|done].
Qed.

Lemma fit_estimators_loop_entry_count out fitted fitted' :
  fit_estimators_loop out fitted = Ok fitted' →
  entry_count fitted'
  = entry_count fitted + length (filter named_result out).
Proof.
  revert fitted. induction out as [|r out IH]; intros fitted Hloop.
  - injection Hloop as <-. simpl. lia.
  - destruct (fit_estimators_loop_Ok_inv _ _ _ _ Hloop)
      as (c & name & est & Hr & Hhash).
    destruct (decide (name = VNone)) as [->|Hname].
    + rewrite (fit_estimators_loop_drop _ _ _ _ _ Hr) in Hloop.
      rewrite filter_cons_False; [by apply IH|].
      intros (c' & name' & est' & Hr' & Hname'). rewrite Hr in Hr'.
      by injection Hr' as _ <- _.
    + rewrite (fit_estimators_loop_keep _ _ _ _ _ _ Hr Hname (Hhash Hname))
        in Hloop.
      rewrite filter_cons_True by (by exists c, name, est).
      rewrite (IH _ Hloop), entry_count_insert. simpl. lia.
Qed.

Lemma fit_estimators_loop_all_failed out fitted :
  Forall (λ r, ∃ case est, iter_value r ≫= unpack3 = Ok (case, VNone, est)) out →
  fit_estimators_loop out fitted = Ok fitted.
Proof.
  induction 1 as [|r out (c & est & Hr) _ IH]; [done|].
  by rewrite (fit_estimators_loop_drop _ _ _ _ _ Hr).
Qed.
End fit_loop_more.

(** X11. [fit_estimators] returns exactly when the dispatch returns and
    every result unpacks into three items, the case of a result with a name
    being hashable; the case of a result without a name is never looked
    at. *)
Theorem fit_estimators_returns_iff
    (_fit_estimator : value → res value) (data : list value) (y : value)
    (estimator_cases : gmap value (list value)) (n_jobs : Z) (verbose : bool) :
  is_Ok (fit_estimators _fit_estimator data y estimator_cases n_jobs verbose)
  ↔ ∃ out,
      _parallel_estimation _fit_estimator data estimator_cases (Some [y])
        n_jobs verbose = Ok out
      ∧ Forall fit_result out.
Proof.
  unfold fit_estimators. split.
  - intros [fitted (out & Hout & Hloop)%res_bind_Ok]. exists out.
    split; [done|]. rewrite lift_res in Hloop.
    apply (fit_estimators_loop_Ok_iff out ∅). by exists fitted.
  - intros (out & -> & Hout). simpl. rewrite lift_res.
    by apply fit_estimators_loop_Ok_iff.
Qed.

(** X12. Whatever [fit_estimators] raises is raised by the dispatch, or is
    the [TypeError] or [ValueError] of a result that cannot be unpacked or
    filed: its own dictionary never raises [KeyError], every case being
    entered before it is read. *)
Theorem fit_estimators_raises
    (_fit_estimator : value → res value) (data : list value) (y : value)
    (estimator_cases : gmap value (list value)) (n_jobs : Z) (verbose : bool)
    (e : exn) :
  fit_estimators _fit_estimator data y estimator_cases n_jobs verbose = Err e →
  _parallel_estimation _fit_estimator data estimator_cases (Some [y])
    n_jobs verbose = Err e
  ∨ (is_Ok (_parallel_estimation _fit_estimator data estimator_cases
              (Some [y]) n_jobs verbose)
     ∧ (e = TypeError ∨ e = ValueError)).
Proof.
  unfold fit_estimators.
  intros [Hd|(out & Hout & Hloop)]%res_bind_Err; [by left|]. right.
  split; [by exists out|]. rewrite lift_res in Hloop.
  by eapply fit_estimators_loop_Err.
Qed.

Lemma fit_estimators_raises_witness :
  _parallel_estimation (λ _, Ok (VTuple [VList []; VStr "m1"; VObj 1]))
    sample_data sample_cases (Some [VObj 9]) (-1) false = Err TypeError
  ∨ (is_Ok (_parallel_estimation
              (λ _, Ok (VTuple [VList []; VStr "m1"; VObj 1]))
              sample_data sample_cases (Some [VObj 9]) (-1) false)
     ∧ (TypeError = TypeError ∨ TypeError = ValueError)).
Proof.
  apply (fit_estimators_raises _ sample_data (VObj 9) sample_cases (-1) false).
  reflexivity.
Defined.

(** X13. When the dispatch returns and a result is the first that cannot
    be filed, [fit_estimators] raises on it: [TypeError] when it cannot be
    iterated, [ValueError] when it does not unpack into three items,
    [TypeError] when it has a name and a case that cannot be hashed. *)
Theorem fit_estimators_first_bad_result
    (_fit_estimator : value → res value) (data : list value) (y : value)
    (estimator_cases : gmap value (list value)) (n_jobs : Z) (verbose : bool)
    (before after : list value) (r : value) :
  _parallel_estimation _fit_estimator data estimator_cases (Some [y])
    n_jobs verbose = Ok (before ++ r :: after) →
  Forall fit_result before →
  (¬ iterable r →
   fit_estimators _fit_estimator data y estimator_cases n_jobs verbose
   = Err TypeError)
  ∧ (∀ items, iter_value r = Ok items → length items ≠ 3 →
     fit_estimators _fit_estimator data y estimator_cases n_jobs verbose
     = Err ValueError)
  ∧ (∀ case est_name est,
       iter_value r = Ok [case; est_name; est] →
       est_name ≠ VNone → hashable case = false →
       fit_estimators _fit_estimator data y estimator_cases n_jobs verbose
       = Err TypeError).
Proof.
  intros Hout Hbefore. unfold fit_estimators. rewrite Hout; simpl.
  rewrite lift_res, fit_estimators_loop_app.
  destruct (fit_estimators_loop_total before ∅ Hbefore) as [fitted ->].
  simpl. split_and!.
  - intros Hiter. destruct (iter_value r) as [items|e] eqn:Hr; simpl.
    + destruct Hiter. by exists items.
    + by rewrite (iter_value_Err _ _ Hr).
  - intros items -> Hlen. simpl.
    by destruct items as [|a [|b [|c [|d items]]]].
  - intros c name est -> Hname Hhash. simpl.
    rewrite decide_True by done. unfold dict_contains. by rewrite Hhash.
Qed.

Lemma fit_estimators_first_bad_result_witness :
  (¬ iterable (VTuple [VStr "Y"; VStr "m1"]) →
   fit_estimators
     (λ arg, match arg with
             | VTuple [_; VTuple [_; VStr "Y"]; _] =>
                 Ok (VTuple [VStr "Y"; VStr "m1"])
             | _ => sample_fit arg
             end)
     sample_data (VObj 9) sample_cases (-1) false = Err TypeError)
  ∧ (∀ items, iter_value (VTuple [VStr "Y"; VStr "m1"]) = Ok items →
     length items ≠ 3 →
     fit_estimators
       (λ arg, match arg with
               | VTuple [_; VTuple [_; VStr "Y"]; _] =>
                   Ok (VTuple [VStr "Y"; VStr "m1"])
               | _ => sample_fit arg
               end)
       sample_data (VObj 9) sample_cases (-1) false = Err ValueError)
  ∧ (∀ case est_name est,
       iter_value (VTuple [VStr "Y"; VStr "m1"]) = Ok [case; est_name; est] →
       est_name ≠ VNone → hashable case = false →
       fit_estimators
         (λ arg, match arg with
                 | VTuple [_; VTuple [_; VStr "Y"]; _] =>
                     Ok (VTuple [VStr "Y"; VStr "m1"])
                 | _ => sample_fit arg
                 end)
         sample_data (VObj 9) sample_cases (-1) false = Err TypeError).
Proof.
  apply (fit_estimators_first_bad_result _ sample_data (VObj 9) sample_cases
           (-1) false [VTuple [VStr "X"; VStr "m1"; VObj 101]]
           [VTuple [VStr "Y"; VStr "m1"]] (VTuple [VStr "Y"; VStr "m1"])).
  - reflexivity.
  - repeat constructor. eexists _, _, _. split; [reflexivity|]. reflexivity.
Defined.

(** X14. When every estimator fails on every tuple, the results all
    carrying the name [None], [fit_estimators] returns the empty
    dictionary: it does not raise, and no case is entered. *)
Theorem fit_estimators_all_failed
    (_fit_estimator : value → res value) (data : list value) (y : value)
    (estimator_cases : gmap value (list value)) (n_jobs : Z) (verbose : bool)
    (out : list value) :
  _parallel_estimation _fit_estimator data estimator_cases (Some [y])
    n_jobs verbose = Ok out →
  Forall (λ r, ∃ case est, iter_value r ≫= unpack3 = Ok (case, VNone, est)) out →
  fit_estimators _fit_estimator data y estimator_cases n_jobs verbose = Ok ∅.
Proof.
  intros Hout Hfailed. unfold fit_estimators. rewrite Hout; simpl.
  rewrite lift_res. by apply fit_estimators_loop_all_failed.
Qed.

Lemma fit_estimators_all_failed_witness :
  fit_estimators (λ _, Ok (VTuple [VNone; VNone; VNone])) sample_data (VObj 9)
    sample_cases (-1) false = Ok ∅.
Proof.
  eapply fit_estimators_all_failed.
  - reflexivity.
  - repeat constructor; eexists _, _; reflexivity.
Defined.

(** X15. No fitted estimator is lost or doubled: the lists of the returned
    dictionary hold, taken together, as many pairs as the dispatch gave
    results with a name. *)
Theorem fit_estimators_entry_count
    (_fit_estimator : value → res value) (data : list value) (y : value)
    (estimator_cases : gmap value (list value)) (n_jobs : Z) (verbose : bool)
    (fitted : gmap value (list value)) :
  fit_estimators _fit_estimator data y estimator_cases n_jobs verbose
    = Ok fitted →
  ∃ out,
    _parallel_estimation _fit_estimator data estimator_cases (Some [y])
      n_jobs verbose = Ok out
    ∧ entry_count fitted = length (filter named_result out).
Proof.
  unfold fit_estimators. intros (out & Hout & Hloop)%res_bind_Ok.
  exists out. split; [done|]. rewrite lift_res in Hloop.
  by rewrite (fit_estimators_loop_entry_count _ _ _ Hloop).
Qed.

Lemma fit_estimators_entry_count_witness :
  ∃ out,
    _parallel_estimation sample_fit sample_data sample_cases (Some [VObj 9])
      (-1) false = Ok out
    ∧ entry_count
        (<[VStr "X" := [VTuple [VStr "m1"; VObj 101]]]>
           (<[VStr "Y" := [VTuple [VStr "m1"; VObj 101]]]> ∅))
      = length (filter named_result out).
Proof.
  apply (fit_estimators_entry_count sample_fit sample_data (VObj 9)
           sample_cases (-1) false).
  vm_compute. reflexivity.
Defined.

(** ** Further properties of the cross-validation orchestrator *)

Section cross_validation_jobs.
Context (_fit_score : value * value * value * value * value * value * value
                      → res value).
Context (param_sets : gmap value (list value)).
Context (scoring error_score : value) (n_jobs : Z) (verbose : bool).

(** The jobs of one fold and one estimator, and those of one fold. *)
Let estimator_gen (tup : value) (item : value * value) : gen (res value) :=
  let '(est_name, est) := item in
  gen_for_in
    (imap (λ (i : nat) (params : value), (VInt (Z.of_nat i), params))
       <$> dict_getitem param_sets est_name)
    (λ '(i, params),
       gen_yield
         (delayed _fit_score
            (est, est_name, params, scoring, tup, i, error_score))).

Let estimator_args (tup : value) (item : value * value) :=
  imap (λ (i : nat) (params : value),
          (item.2, item.1, params, scoring, tup, VInt (Z.of_nat i), error_score))
    (params_of param_sets item.1).

Lemma res_bind_ret {A} (m : res A) : m ≫= mret = m.
Proof. by destruct m. Qed.

Lemma mapM_res_app {A B} (f : A → res B) (l1 l2 : list A) :
  mapM f (l1 ++ l2) = rs1 ← mapM f l1; rs2 ← mapM f l2; Ok (rs1 ++ rs2).
Proof.
  induction l1 as [|x l1 IH]; simpl.
  - by destruct (mapM f l2).
  - destruct (f x); simpl; [|done]. rewrite IH.
    destruct (mapM f l1); simpl; [|done]. by destruct (mapM f l2).
Qed.

Lemma run_serial_gen_for_mapM {A B} (l : list A) (body : A → gen (res value))
    (f : B → res value) (g : A → list B) :
  (∀ x, x ∈ l → run_serial (body x) = mapM f (g x)) →
  run_serial (gen_for l body) = mapM f (l ≫= g).
Proof.
  induction l as [|x l IH]; intros Hbody; [done|]. simpl.
  rewrite run_serial_gen_seq, mapM_res_app, Hbody by left.
  rewrite IH; [done|]. intros x' Hx'. apply Hbody. by right.
Qed.

Lemma mapM_imap_ext {A B C} (f : B → res value) (g : C → res value)
    (h : nat → A → B) (k : nat → A → C) (l : list A) :
  (∀ i x, f (h i x) = g (k i x)) → mapM f (imap h l) = mapM g (imap k l).
Proof.
  intros Hext. revert h k Hext.
  induction l as [|x l IH]; intros h k Hext; [done|]. simpl.
  rewrite Hext. destruct (g (k 0 x)); simpl; [|done].
  by rewrite (IH (h ∘ S) (k ∘ S)) by (intros; apply Hext).
Qed.

(** The jobs of one estimator in one fold, when its parameter sets are
    found. *)
Lemma estimator_gen_found tup item params :
  dict_getitem param_sets item.1 = Ok params →
  run_serial (estimator_gen tup item)
  = mapM _fit_score (estimator_args tup item).
Proof.
  destruct item as [est_name est]. unfold estimator_gen, estimator_args,
    params_of. simpl. intros ->. simpl.
  rewrite (gen_for_ext _ _ (λ x, gen_yield
    (_fit_score (est, est_name, x.2, scoring, tup, x.1, error_score))))
    by (by intros []).
  rewrite (run_serial_gen_for_yield
    (λ x, _fit_score (est, est_name, x.2, scoring, tup, x.1, error_score))).
  by apply mapM_imap_ext.
Qed.

Lemma estimator_gen_missing tup item e :
  dict_getitem param_sets item.1 = Err e →
  run_serial (estimator_gen tup item) = Err e.
Proof.
  destruct item as [est_name est]. unfold estimator_gen. simpl.
  by intros ->.
Qed.

Lemma cross_validate_gen estimators dout :
  cross_validate _fit_score estimators param_sets dout scoring error_score
    n_jobs verbose
  = Parallel n_jobs verbose
      (gen_for dout (λ tup, gen_for estimators (estimator_gen tup))).
Proof.
  unfold cross_validate. by rewrite res_bind_ret.
Qed.

Lemma cross_validate_serial estimators dout :
  n_jobs ≠ 0%Z →
  cross_validate _fit_score estimators param_sets dout scoring error_score
    n_jobs verbose
  = run_serial (gen_for dout (λ tup, gen_for estimators (estimator_gen tup))).
Proof. intros Hn. rewrite cross_validate_gen. by apply Parallel_serial. Qed.

Lemma cross_validate_zero estimators dout :
  n_jobs = 0%Z →
  cross_validate _fit_score estimators param_sets dout scoring error_score
    n_jobs verbose = Err ValueError.
Proof.
  intros Hn. rewrite cross_validate_gen, Hn. apply Parallel_zero.
Qed.

(** One fold with an estimator whose parameter sets are missing. *)
Lemma fold_missing_Err estimators tup est_name est :
  (est_name, est) ∈ estimators →
  dict_contains param_sets est_name = Ok false →
  is_Err (run_serial (gen_for estimators (estimator_gen tup))).
Proof.
  intros Hin Hmissing.
  assert (dict_getitem param_sets est_name = Err KeyError) as Hget.
  { unfold dict_contains, dict_getitem in *.
    destruct (hashable est_name); [|done]. injection Hmissing as Hb.
    apply bool_decide_eq_false in Hb.
    destruct (param_sets !! est_name); [|done]. by destruct Hb. }
  induction estimators as [|item ests IH]; [by inversion Hin|]. simpl.
  rewrite run_serial_gen_seq. apply elem_of_cons in Hin as [<-|Hin].
  - rewrite (estimator_gen_missing tup (est_name, est) KeyError Hget).
    by eexists.
  - destruct (run_serial (estimator_gen tup item)); simpl; [|by eexists].
    destruct (IH Hin) as [e ->]. by eexists.
Qed.

Lemma fold_missing_KeyError estimators tup est_name est :
  (est_name, est) ∈ estimators →
  dict_contains param_sets est_name = Ok false →
  Forall (λ item, is_Ok (dict_contains param_sets item.1)) estimators →
  (∀ args, is_Ok (_fit_score args)) →
  run_serial (gen_for estimators (estimator_gen tup)) = Err KeyError.
Proof.
  intros Hin Hmissing Hnames Htotal.
  induction Hnames as [|item ests [present Hitem] _ IH]; [by inversion Hin|].
  simpl. rewrite run_serial_gen_seq.
  destruct (dict_getitem param_sets item.1) as [params|e] eqn:Hget.
  - rewrite (estimator_gen_found _ _ _ Hget).
    destruct (proj2 (mapM_res_is_Ok _fit_score (estimator_args tup item)))
      as [rs ->]; [apply Forall_forall; auto|]. simpl.
    apply elem_of_cons in Hin as [<-|Hin].
    + unfold dict_contains, dict_getitem in *. simpl in *.
      destruct (hashable est_name); [|done]. injection Hmissing as Hb.
      apply bool_decide_eq_false in Hb.
      destruct (param_sets !! est_name); [|done]. destruct Hb. by eexists.
    + by rewrite IH.
  - rewrite (estimator_gen_missing _ _ _ Hget). simpl.
    unfold dict_contains, dict_getitem in Hitem, Hget.
    destruct (hashable item.1); [|done].
    destruct (param_sets !! item.1); congruence.
Qed.

Lemma cross_validate_found estimators dout :
  n_jobs ≠ 0%Z →
  Forall (λ item, dict_contains param_sets item.1 = Ok true) estimators →
  cross_validate _fit_score estimators param_sets dout scoring error_score
    n_jobs verbose
  = mapM _fit_score
      (score_args estimators param_sets dout scoring error_score).
Proof.
  intros Hn Hsets. rewrite cross_validate_serial by done. unfold score_args.
  apply run_serial_gen_for_mapM. intros tup _.
  apply (run_serial_gen_for_mapM _ _ _ (estimator_args tup)).
  intros item Hitem. rewrite Forall_forall in Hsets.
  specialize (Hsets _ Hitem). unfold dict_contains in Hsets.
  destruct (hashable item.1) eqn:Hhash; [|done]. injection Hsets as Hb.
  apply bool_decide_eq_true in Hb as [params Hparams].
  apply (estimator_gen_found _ _ params). unfold dict_getitem.
  by rewrite Hhash, Hparams.
Qed.
End cross_validation_jobs.

(** X16. When [param_sets] has an entry for the name of every estimator,
    the jobs of [cross_validate] are the scoring job on
    [(est, est_name, params, scoring, tup, i, error_score)] for every fold,
    then every estimator in the order of [estimators], then every parameter
    set of that estimator, [i] being its position from 0 in the estimator's
    list.  With one job after the other ([n_jobs = 1]) [cross_validate]
    returns their values in that order, or raises the exception of the first
    that raises; with any [n_jobs] other than 0 it returns their values in
    that order when they all return. *)
Theorem cross_validate_results
    (_fit_score : value * value * value * value * value * value * value
                  → res value)
    (estimators : list (value * value))
    (param_sets : gmap value (list value)) (dout : list value)
    (scoring error_score : value) (verbose : bool) :
  Forall (λ item, dict_contains param_sets item.1 = Ok true) estimators →
  cross_validate _fit_score estimators param_sets dout scoring error_score
    1 verbose
  = mapM _fit_score
      (score_args estimators param_sets dout scoring error_score)
  ∧ (∀ n_jobs out,
       n_jobs ≠ 0%Z →
       mapM _fit_score
         (score_args estimators param_sets dout scoring error_score) = Ok out →
       cross_validate _fit_score estimators param_sets dout scoring
         error_score n_jobs verbose = Ok out).
Proof.
  intros Hsets. split.
  - by apply cross_validate_found.
  - intros n_jobs out Hn <-. by apply cross_validate_found.
Qed.

Lemma cross_validate_results_witness :
  cross_validate sample_score sample_estimators
    (<[VStr "a" := [VObj 20; VObj 22]]> sample_param_sets)
    [VObj 30; VObj 31] VNone (VInt (-99)) 1 false
  = mapM sample_score
      (score_args sample_estimators
         (<[VStr "a" := [VObj 20; VObj 22]]> sample_param_sets)
         [VObj 30; VObj 31] VNone (VInt (-99)))
  ∧ (∀ n_jobs out,
       n_jobs ≠ 0%Z →
       mapM sample_score
         (score_args sample_estimators
            (<[VStr "a" := [VObj 20; VObj 22]]> sample_param_sets)
            [VObj 30; VObj 31] VNone (VInt (-99))) = Ok out →
       cross_validate sample_score sample_estimators
         (<[VStr "a" := [VObj 20; VObj 22]]> sample_param_sets)
         [VObj 30; VObj 31] VNone (VInt (-99)) n_jobs false = Ok out).
Proof.
  apply cross_validate_results. repeat constructor.
Defined.

(** The order and the indices, on two folds and two estimators, the first
    with two parameter sets. *)
Example cross_validate_results_sample :
  cross_validate sample_score sample_estimators
    (<[VStr "a" := [VObj 20; VObj 22]]> sample_param_sets)
    [VObj 30; VObj 31] VNone (VInt (-99)) (-1) false
  = Ok [VTuple [VObj 30; VStr "a"; VInt 0]; VTuple [VObj 30; VStr "a"; VInt 1];
        VTuple [VObj 30; VStr "b"; VInt 0];
        VTuple [VObj 31; VStr "a"; VInt 0]; VTuple [VObj 31; VStr "a"; VInt 1];
        VTuple [VObj 31; VStr "b"; VInt 0]].
Proof. reflexivity. Qed.

(** X17. [param_sets] is read fold by fold: with an estimator whose name it
    lacks, [cross_validate] still returns the empty list when there is no
    fold and [n_jobs] is not 0, and raises as soon as there is a fold; what
    it raises is the [KeyError] of the lookup when [n_jobs] is not 0, the
    scoring job returns and every estimator name is hashable. *)
Theorem cross_validate_missing_params
    (_fit_score : value * value * value * value * value * value * value
                  → res value)
    (estimators : list (value * value))
    (param_sets : gmap value (list value)) (dout : list value)
    (scoring error_score : value) (n_jobs : Z) (verbose : bool)
    (est_name est : value) :
  (est_name, est) ∈ estimators →
  dict_contains param_sets est_name = Ok false →
  (n_jobs ≠ 0%Z →
   cross_validate _fit_score estimators param_sets [] scoring error_score
     n_jobs verbose = Ok [])
  ∧ (dout ≠ [] →
     is_Err (cross_validate _fit_score estimators param_sets dout scoring
               error_score n_jobs verbose)
     ∧ (n_jobs ≠ 0%Z →
        Forall (λ item, is_Ok (dict_contains param_sets item.1)) estimators →
        (∀ args, is_Ok (_fit_score args)) →
        cross_validate _fit_score estimators param_sets dout scoring
          error_score n_jobs verbose = Err KeyError)).
Proof.
  intros Hin Hmissing. split.
  { intros Hn. by rewrite cross_validate_serial. }
  intros Hdout. destruct dout as [|tup dout]; [done|]. split.
  - destruct (decide (n_jobs = 0%Z)) as [Hz|Hn].
    { rewrite cross_validate_zero by done. by eexists. }
    rewrite cross_validate_serial by done. simpl. rewrite run_serial_gen_seq.
    destruct (fold_missing_Err _fit_score param_sets scoring error_score
                estimators tup est_name est Hin Hmissing) as [e ->].
    by exists e.
  - intros Hn Hnames Htotal.
    rewrite cross_validate_serial by done. simpl. rewrite run_serial_gen_seq.
    by rewrite (fold_missing_KeyError _fit_score param_sets scoring
                  error_score estimators tup est_name est
                  Hin Hmissing Hnames Htotal).
Qed.

Lemma cross_validate_missing_params_witness :
  ((-1)%Z ≠ 0%Z →
   cross_validate sample_score ((VStr "c", VObj 3) :: sample_estimators)
     sample_param_sets [] VNone (VInt (-99)) (-1) false = Ok [])
  ∧ ([VObj 30] ≠ [] →
     is_Err (cross_validate sample_score
               ((VStr "c", VObj 3) :: sample_estimators) sample_param_sets
               [VObj 30] VNone (VInt (-99)) (-1) false)
     ∧ ((-1)%Z ≠ 0%Z →
        Forall (λ item, is_Ok (dict_contains sample_param_sets item.1))
          ((VStr "c", VObj 3) :: sample_estimators) →
        (∀ args, is_Ok (sample_score args)) →
        cross_validate sample_score
          ((VStr "c", VObj 3) :: sample_estimators) sample_param_sets
          [VObj 30] VNone (VInt (-99)) (-1) false = Err KeyError)).
Proof.
  apply (cross_validate_missing_params sample_score
           ((VStr "c", VObj 3) :: sample_estimators) sample_param_sets
           [VObj 30] VNone (VInt (-99)) (-1) false (VStr "c") (VObj 3)).
  - left.
  - reflexivity.
Defined.

(** ** Batches *)

(** X20. Fitting on two batches of data tuples and joining, case by case,
    the lists of the second dictionary after those of the first gives what
    fitting on the two batches at once gives. *)
Theorem fit_estimators_app
    (_fit_estimator : value → res value) (data1 data2 : list value)
    (y : value) (estimator_cases : gmap value (list value))
    (n_jobs : Z) (verbose : bool) (fitted1 fitted2 : gmap value (list value)) :
  fit_estimators _fit_estimator data1 y estimator_cases n_jobs verbose
    = Ok fitted1 →
  fit_estimators _fit_estimator data2 y estimator_cases n_jobs verbose
    = Ok fitted2 →
  fit_estimators _fit_estimator (data1 ++ data2) y estimator_cases
    n_jobs verbose
  = Ok (union_with (λ l1 l2, Some (l1 ++ l2)) fitted1 fitted2).
Proof.
  unfold fit_estimators.
  intros (out1 & Hout1 & Hloop1)%res_bind_Ok (out2 & Hout2 & Hloop2)%res_bind_Ok.
  rewrite lift_res in Hloop1, Hloop2.
  rewrite dispatch_app, Hout1; simpl. rewrite Hout2; simpl.
  rewrite lift_res, fit_estimators_loop_app, Hloop1; simpl.
  destruct (fit_estimators_loop_total out2 fitted1) as [fitted Hloop].
  { apply (fit_estimators_loop_Ok_iff out2 ∅). by exists fitted2. }
  rewrite Hloop. f_equal. apply map_eq. intros key.
  rewrite (fit_estimators_loop_lookup _ _ _ key Hloop), lookup_union_with.
  rewrite (fit_estimators_loop_lookup _ _ _ key Hloop2), lookup_empty.
  destruct (fitted1 !! key) as [l|]; case_decide as Hnil; simpl; try done.
  by rewrite Hnil, app_nil_r.
Qed.

Lemma fit_estimators_app_witness :
  fit_estimators sample_fit
    ([VTuple [VObj 10; VStr "Y"]] ++ [VTuple [VObj 11; VStr "Y"]]) (VObj 9)
    sample_cases (-1) false
  = Ok (union_with (λ l1 l2, Some (l1 ++ l2))
          (<[VStr "Y" := [VTuple [VStr "m1"; VObj 101]]]> ∅)
          (<[VStr "Y" := [VTuple [VStr "m1"; VObj 101]]]> ∅)).
Proof.
  apply fit_estimators_app; vm_compute; reflexivity.
Defined.

(** X21. With one job after the other ([n_jobs = 1]), the folds are scored
    in order: [cross_validate] on two lists of folds put end to end returns
    the results of the first followed by those of the second, and raises
    what the first raises without reaching the second. *)
Theorem cross_validate_app
    (_fit_score : value * value * value * value * value * value * value
                  → res value)
    (estimators : list (value * value))
    (param_sets : gmap value (list value)) (dout1 dout2 : list value)
    (scoring error_score : value) (verbose : bool) :
  cross_validate _fit_score estimators param_sets (dout1 ++ dout2) scoring
    error_score 1 verbose
  = match cross_validate _fit_score estimators param_sets dout1 scoring
            error_score 1 verbose with
    | Err e => Err e
    | Ok rs1 =>
        match cross_validate _fit_score estimators param_sets dout2 scoring
                error_score 1 verbose with
        | Err e => Err e
        | Ok rs2 => Ok (rs1 ++ rs2)
        end
    end.
Proof.
  rewrite !cross_validate_gen, gen_for_app, Parallel_gen_seq.
  by repeat case_match.
Qed.
